(** * The command parser of [src/ci/parser.c], embedded in Rocq

    The parser reads a stream of tokens through a two-token buffer and
    builds the list of commands of the program.  The C functions are
    translated one by one, with the parser state passed explicitly; the
    text printed by [print_error] is kept as a list of reports inside the
    state.  The token, command and lexer declarations live in headers that
    are not part of the translated file; they are modelled from their uses
    in [parser.c] and from the specification. *)

From Stdlib Require Import ZArith List String Ascii Bool Arith Lia.
Import ListNotations.


(** ** Characters and C strings *)

(** A C string is the list of the characters that precede its terminator. *)
Definition cstring := list ascii.

Definition str (s : string) : cstring := list_ascii_of_string s.

Definition NUL : ascii := Ascii.zero.
Definition LF : ascii := ascii_of_nat 10.

(** The character code, as the [int] a [char] is promoted to for the
    comparisons of the source (every test of the parser is against an
    ASCII range, so the sign of [char] plays no role). *)
Definition code (c : ascii) : Z := Z.of_nat (nat_of_ascii c).

Definition in_range (lo hi c : ascii) : bool :=
  (code lo <=? code c)%Z && (code c <=? code hi)%Z.

(** [s[i]]: reading at the end of the string yields the terminator. *)
Definition char_at (s : cstring) (i : nat) : ascii := nth i s NUL.

(** The characters a C library call sees from a pointer: up to the first
    terminator. *)
Fixpoint c_str (s : cstring) : cstring :=
  match s with
  | [] => []
  | c :: r => if Ascii.eqb c NUL then [] else c :: c_str r
  end.

(** [strdup]: a fresh copy of the string behind the pointer. *)
Definition strdup (s : cstring) : cstring := c_str s.

Fixpoint take_while (f : ascii -> bool) (s : cstring) : cstring :=
  match s with
  | [] => []
  | c :: r => if f c then c :: take_while f r else []
  end.

Fixpoint drop_while (f : ascii -> bool) (s : cstring) : cstring :=
  match s with
  | [] => []
  | c :: r => if f c then drop_while f r else s
  end.

(** ** Tokens (token_type.h, lexer.h) *)

(** The token kinds [parser.c] names; [TOK_OTHER] stands for the kinds of
    the enumeration that the file never mentions (they all reach the
    [default] case of [parse_cmd]). *)
Inductive TokenType : Type :=
  | TOK_ADD | TOK_SUB | TOK_MOV | TOK_CMP | TOK_CMP_U | TOK_PRINT
  | TOK_IDENT | TOK_NUM | TOK_NL | TOK_EOF | TOK_OTHER.

Definition TokenType_eqb (a b : TokenType) : bool :=
  match a, b with
  | TOK_ADD, TOK_ADD | TOK_SUB, TOK_SUB | TOK_MOV, TOK_MOV
  | TOK_CMP, TOK_CMP | TOK_CMP_U, TOK_CMP_U | TOK_PRINT, TOK_PRINT
  | TOK_IDENT, TOK_IDENT | TOK_NUM, TOK_NUM | TOK_NL, TOK_NL
  | TOK_EOF, TOK_EOF | TOK_OTHER, TOK_OTHER => true
  | _, _ => false
  end.

(** Modelled from the spec: the [Token] structure is declared in lexer.h.
    A token is a kind, a borrowed slice of the source text, its length,
    and its line and column.  The slice is a pointer into the source
    buffer, so [tok_lexeme] is the source from the first character of the
    token to the end of the buffer and [tok_length] tells where the token
    stops. *)
Record Token : Type := mkToken {
  tok_type   : TokenType;
  tok_lexeme : cstring;
  tok_length : nat;
  tok_line   : nat;
  tok_column : nat
}.

(** The characters of the token itself. *)
Definition token_text (t : Token) : cstring :=
  firstn (tok_length t) (tok_lexeme t).

(** The slice lies inside the buffer. *)
Definition token_wf (t : Token) : Prop :=
  tok_length t <= List.length (tok_lexeme t).

(** Modelled from the spec: the lexer is declared in lexer.h.  It yields a
    finite sequence of tokens and then the end-of-input sentinel, again
    and again.  The state of the lexer is the list of the tokens it has
    still to produce. *)
Definition Lexer := list Token.

Definition eof_token : Token := mkToken TOK_EOF [] 0 0 0.

Definition lexer_next_token (lx : Lexer) : Token * Lexer :=
  match lx with
  | [] => (eof_token, [])
  | t :: rest => (t, rest)
  end.

(** ** Commands (command.h, command_type.h) *)

Inductive CommandType : Type :=
  | CMD_ADD | CMD_SUB | CMD_MOV | CMD_CMP | CMD_CMP_U | CMD_PRINT.

Inductive BranchCondition : Type :=
  | BRANCH_NONE.

(** Modelled from the spec: [Operand] is a union with the members
    [num_val] (a 64-bit number, kept here as its unsigned value), [base]
    (a register index) and [str_val] (an owned string).  The constructor
    records which member was written last; memory cleared by [calloc] reads
    as [num_val 0]. *)
Inductive Operand : Type :=
  | num_val (v : Z)
  | base (r : Z)
  | str_val (s : cstring).

(** The [next] link of the C structure is the order of the list the
    commands are collected in. *)
Record Command : Type := mkCommand {
  cmd_type         : CommandType;
  destination      : Operand;
  val_a            : Operand;
  val_b            : Operand;
  is_a_immediate   : bool;
  is_a_string      : bool;
  is_b_immediate   : bool;
  is_b_string      : bool;
  branch_condition : BranchCondition
}.

(** ** The parser state (parser.h) *)

Definition LabelMap := nat.

(** One report of [print_error]: the text, kind, length, line and column
    of the token that is current when the report is printed. *)
Record Diagnostic : Type := mkDiagnostic {
  diag_text   : cstring;
  diag_type   : TokenType;
  diag_length : nat;
  diag_line   : nat;
  diag_column : nat
}.

(** The fields of [Parser], and the reports written to the standard output
    so far, oldest first. *)
Record Parser : Type := mkParser {
  lexer     : Lexer;
  current   : Token;
  next      : Token;
  had_error : bool;
  label_map : LabelMap;
  stdout    : list Diagnostic
}.

Definition set_tokens (p : Parser) (lx : Lexer) (c n : Token) : Parser :=
  mkParser lx c n (had_error p) (label_map p) (stdout p).

Definition set_had_error (p : Parser) (b : bool) : Parser :=
  mkParser (lexer p) (current p) (next p) b (label_map p) (stdout p).

Definition parser_init (lx : Lexer) (map : LabelMap) : Parser :=
  let (c, lx1) := lexer_next_token lx in
  let (n, lx2) := lexer_next_token lx1 in
  mkParser lx2 c n false map [].

Definition is_at_end (p : Parser) : bool :=
  TokenType_eqb (tok_type (current p)) TOK_EOF.

Definition advance (p : Parser) : Token * Parser :=
  let ret_token := current p in
  if negb (is_at_end p) then
    let (n, lx) := lexer_next_token (lexer p) in
    (ret_token, set_tokens p lx (next p) n)
  else (ret_token, p).

Definition consume (p : Parser) (type : TokenType) : bool * Parser :=
  if TokenType_eqb (tok_type (current p)) type then (true, snd (advance p))
  else (false, p).

(** [calloc] is taken to succeed; the fields are those the C function
    sets, the destination being the cleared memory. *)
Definition create_command (type : CommandType) : Command :=
  mkCommand type (num_val 0) (num_val 0) (num_val 0)
            false false false false BRANCH_NONE.

Definition is_variable (token : Token) : bool :=
  (2 <=? tok_length token) && Ascii.eqb (char_at (tok_lexeme token) 0) "x".

Definition is_base (token : Token) : bool :=
  (tok_length token =? 1) &&
  (Ascii.eqb (char_at (tok_lexeme token) 0) "d" ||
   Ascii.eqb (char_at (tok_lexeme token) 0) "x" ||
   Ascii.eqb (char_at (tok_lexeme token) 0) "s" ||
   Ascii.eqb (char_at (tok_lexeme token) 0) "b").

(** The stub of the source: it parses nothing. *)
Definition parse_base (p : Parser) (op : Operand) : bool * Operand * Parser :=
  (false, op, p).

(** ** [strtol] in base 10 *)

Definition isspace (c : ascii) : bool :=
  Ascii.eqb c " " || in_range (ascii_of_nat 9) (ascii_of_nat 13) c.

Definition is_decimal (c : ascii) : bool := in_range "0" "9" c.

Definition LONG_MAX : Z := 2 ^ 63 - 1.
Definition LONG_MIN : Z := - 2 ^ 63.

Definition clamp_long (v : Z) : Z := Z.max LONG_MIN (Z.min LONG_MAX v).

(** The digits read so far, most significant first. *)
Definition accumulate (b : Z) (ds : cstring) : Z :=
  fold_left (fun acc c => (acc * b + (code c - code "0"))%Z) ds 0%Z.

(** [strtol(nptr, &endptr, 10)]: the value, and how far [endptr] lies
    behind [nptr].  White space is skipped, one sign is read, then the
    longest run of decimal digits; without a digit nothing is converted
    and [endptr] is [nptr]; a value outside [long] is clamped. *)
Definition strtol (nptr : cstring) : Z * nat :=
  let ws := take_while isspace nptr in
  let s1 := drop_while isspace nptr in
  let '(neg, sl, s2) :=
    match s1 with
    | c :: r => if Ascii.eqb c "-" then (true, 1, r)
                else if Ascii.eqb c "+" then (false, 1, r)
                else (false, 0, s1)
    | [] => (false, 0, s1)
    end in
  let ds := take_while is_decimal s2 in
  match ds with
  | [] => (0%Z, 0)
  | _ :: _ =>
      let v := accumulate 10 ds in
      (clamp_long (if neg then - v else v)%Z,
       List.length ws + sl + List.length ds)
  end.

(** [parse_variable]: the register number, or [None] where the C function
    returns false.  [token.lexeme + 1] is the tail of the lexeme. *)
Definition parse_variable (token : Token) : option Z :=
  let '(tempnum, endptr) := strtol (tl (tok_lexeme token)) in
  if negb (tok_length token =? 1 + endptr) || (tempnum <? 0)%Z || (31 <? tempnum)%Z
  then None
  else Some tempnum.

(** ** Immediates *)

(** Arithmetic on [uint64_t]. *)
Definition wrap64 (v : Z) : Z := (v mod 2 ^ 64)%Z.

(** The three loops of [parse_imm], run from index [i] for [n] rounds
    ([n] is [length - i] at the start of each loop of the source); [None]
    is the [return false] of the loop body. *)
Fixpoint imm_hex_loop (lexeme : cstring) (i n : nat) (value : Z) : option Z :=
  match n with
  | O => Some value
  | S n' =>
      let c := char_at lexeme i in
      if in_range "0" "9" c then
        imm_hex_loop lexeme (S i) n' (wrap64 (value * 16 + (code c - code "0")))
      else if in_range "a" "f" c then
        imm_hex_loop lexeme (S i) n' (wrap64 (value * 16 + (code c - code "a" + 10)))
      else if in_range "A" "F" c then
        imm_hex_loop lexeme (S i) n' (wrap64 (value * 16 + (code c - code "A" + 10)))
      else None
  end.

Fixpoint imm_bin_loop (lexeme : cstring) (i n : nat) (value : Z) : option Z :=
  match n with
  | O => Some value
  | S n' =>
      let c := char_at lexeme i in
      if Ascii.eqb c "0" || Ascii.eqb c "1" then
        imm_bin_loop lexeme (S i) n' (wrap64 (value * 2 + (code c - code "0")))
      else None
  end.

Fixpoint imm_dec_loop (lexeme : cstring) (i n : nat) (value : Z) : option Z :=
  match n with
  | O => Some value
  | S n' =>
      let c := char_at lexeme i in
      if in_range "0" "9" c then
        imm_dec_loop lexeme (S i) n' (wrap64 (value * 10 + (code c - code "0")))
      else None
  end.

(** The part of [parse_imm] between the kind test and the store: the value
    of the literal, or [None] where the function returns false. *)
Definition imm_value (token : Token) : option Z :=
  let s := tok_lexeme token in
  let len := tok_length token in
  if (2 <=? len) && Ascii.eqb (char_at s 0) "0" then
    if Ascii.eqb (char_at s 1) "x" || Ascii.eqb (char_at s 1) "X" then
      imm_hex_loop s 2 (len - 2) 0
    else if Ascii.eqb (char_at s 1) "b" || Ascii.eqb (char_at s 1) "B" then
      imm_bin_loop s 2 (len - 2) 0
    else None
  else imm_dec_loop s 0 len 0.

(** The functions that write through [Operand *op] return the operand; it
    is the one passed in when nothing was written. *)
Definition parse_imm (p : Parser) (op : Operand) : bool * Operand * Parser :=
  let token := current p in
  if negb (TokenType_eqb (tok_type token) TOK_NUM) then (false, op, p)
  else
    match imm_value token with
    | None => (false, op, p)
    | Some value => (true, num_val value, snd (advance p))
    end.

Definition parse_variable_operand (p : Parser) (op : Operand)
  : bool * Operand * Parser :=
  let token := current p in
  if negb (TokenType_eqb (tok_type token) TOK_IDENT) || negb (is_variable token)
  then (false, op, p)
  else
    match parse_variable token with
    | None => (false, op, p)
    | Some var_num => (true, base var_num, snd (advance p))
    end.

Definition parse_var_or_imm (p : Parser) (op : Operand) (is_immediate : bool)
  : bool * Operand * bool * Parser :=
  let token := current p in
  if TokenType_eqb (tok_type token) TOK_IDENT then
    let '(ok, op', p') := parse_variable_operand p op in
    if negb ok then (false, op', is_immediate, p')
    else (true, op', false, p')
  else if TokenType_eqb (tok_type token) TOK_NUM then
    let '(ok, op', p') := parse_imm p op in
    if negb ok then (false, op', is_immediate, p')
    else (true, op', true, p')
  else (false, op, is_immediate, snd (advance p)).

(** ** Loops over the token stream *)

(** An upper bound on the number of times [advance] can still move the
    parser: the buffered tokens and those the lexer has left, up to the
    sentinel. *)
Definition tokens_left (p : Parser) : nat :=
  if is_at_end p then 0
  else if TokenType_eqb (tok_type (next p)) TOK_EOF then 1
  else 2 + List.length (lexer p).

(** [while (consume(parser, TOK_NL));] run for at most [fuel] rounds. *)
Fixpoint skip_nls_loop (fuel : nat) (p : Parser) : Parser :=
  match fuel with
  | O => p
  | S fuel' =>
      let (ok, p') := consume p TOK_NL in
      if ok then skip_nls_loop fuel' p' else p'
  end.

(** The loop cannot run more rounds than there are tokens left
    ([skip_nls_stops] below: it leaves through its condition). *)
Definition skip_nls (p : Parser) : Parser :=
  skip_nls_loop (tokens_left p) p.

Definition consume_newline (p : Parser) : bool * Parser :=
  let (ok, p') := consume p TOK_NL in
  if ok then (true, p') else consume p' TOK_EOF.

Definition not_line_end (p : Parser) : bool :=
  negb (TokenType_eqb (tok_type (current p)) TOK_NL) &&
  negb (TokenType_eqb (tok_type (current p)) TOK_EOF).

(** [while (current.type != TOK_NL && current.type != TOK_EOF) advance;]
    which [parse_cmd] and [parse_commands] both contain. *)
Fixpoint skip_line_loop (fuel : nat) (p : Parser) : Parser :=
  match fuel with
  | O => p
  | S fuel' =>
      if not_line_end p then skip_line_loop fuel' (snd (advance p)) else p
  end.

Definition skip_line (p : Parser) : Parser :=
  skip_line_loop (tokens_left p) p.

(** ** Reports *)

(** [print_error] prints the current token and raises the error flag; it
    uses neither its message nor its command. *)
Definition report (t : Token) : Diagnostic :=
  let text :=
    if TokenType_eqb (tok_type t) TOK_EOF then str "EOF"
    else firstn (tok_length t) (c_str (tok_lexeme t)) in
  mkDiagnostic text (tok_type t) (tok_length t) (tok_line t) (tok_column t).

Definition print_error (p : Parser) (message : string) (cmd : option Command)
  : Parser :=
  mkParser (lexer p) (current p) (next p) true (label_map p)
           (stdout p ++ [report (current p)]).

(** ** One command *)

Definition set_destination (c : Command) (o : Operand) : Command :=
  mkCommand (cmd_type c) o (val_a c) (val_b c) (is_a_immediate c)
            (is_a_string c) (is_b_immediate c) (is_b_string c)
            (branch_condition c).

Definition set_val_a (c : Command) (o : Operand) : Command :=
  mkCommand (cmd_type c) (destination c) o (val_b c) (is_a_immediate c)
            (is_a_string c) (is_b_immediate c) (is_b_string c)
            (branch_condition c).

Definition set_val_b (c : Command) (o : Operand) : Command :=
  mkCommand (cmd_type c) (destination c) (val_a c) o (is_a_immediate c)
            (is_a_string c) (is_b_immediate c) (is_b_string c)
            (branch_condition c).

Definition set_is_a_immediate (c : Command) (b : bool) : Command :=
  mkCommand (cmd_type c) (destination c) (val_a c) (val_b c) b
            (is_a_string c) (is_b_immediate c) (is_b_string c)
            (branch_condition c).

Definition set_is_b_immediate (c : Command) (b : bool) : Command :=
  mkCommand (cmd_type c) (destination c) (val_a c) (val_b c)
            (is_a_immediate c) (is_a_string c) b (is_b_string c)
            (branch_condition c).

(** The end of every case of [parse_cmd]: the line must end here. *)
Definition finish_command (p : Parser) (cmd : Command) : option Command * Parser :=
  if not_line_end p then
    (None, print_error p "Unexpected token after command." (Some cmd))
  else (Some cmd, snd (advance p)).

(** The cases [TOK_ADD] and [TOK_SUB]; they differ in the command type
    and in the messages, which are not printed. *)
Definition parse_arith (type : CommandType) (p : Parser) : option Command * Parser :=
  let p := snd (advance p) in
  let cmd := create_command type in
  let '(ok, dest, p) := parse_variable_operand p (destination cmd) in
  let cmd := set_destination cmd dest in
  if negb ok then (None, print_error p "Invalid destination operand." (Some cmd))
  else
    let '(ok, a, is_immediate_a, p) := parse_var_or_imm p (val_a cmd) false in
    let cmd := set_val_a cmd a in
    if negb ok then (None, print_error p "Invalid first operand." (Some cmd))
    else
      let '(ok, b, is_immediate_b, p) := parse_var_or_imm p (val_b cmd) false in
      let cmd := set_val_b cmd b in
      if negb ok then (None, print_error p "Invalid second operand." (Some cmd))
      else
        let cmd := set_is_a_immediate cmd is_immediate_a in
        let cmd := set_is_b_immediate cmd is_immediate_b in
        finish_command p cmd.

(** The case [TOK_MOV]. *)
Definition parse_mov (p : Parser) : option Command * Parser :=
  let p := snd (advance p) in
  let cmd := create_command CMD_MOV in
  let '(ok, dest, p) := parse_variable_operand p (destination cmd) in
  let cmd := set_destination cmd dest in
  if negb ok then (None, print_error p "Invalid destination operand." (Some cmd))
  else
    let '(ok, a, is_immediate, p) := parse_var_or_imm p (val_a cmd) false in
    let cmd := set_val_a cmd a in
    if negb ok then (None, print_error p "Invalid source operand." (Some cmd))
    else
      let cmd := set_is_a_immediate cmd is_immediate in
      finish_command p cmd.

(** The cases [TOK_CMP] and [TOK_CMP_U]. *)
Definition parse_compare (type : CommandType) (p : Parser) : option Command * Parser :=
  let p := snd (advance p) in
  let cmd := create_command type in
  let '(ok, a, is_immediate_a, p) := parse_var_or_imm p (val_a cmd) false in
  let cmd := set_val_a cmd a in
  if negb ok then (None, print_error p "Invalid first operand." (Some cmd))
  else
    let '(ok, b, is_immediate_b, p) := parse_var_or_imm p (val_b cmd) false in
    let cmd := set_val_b cmd b in
    if negb ok then (None, print_error p "Invalid second operand." (Some cmd))
    else
      let cmd := set_is_a_immediate cmd is_immediate_a in
      let cmd := set_is_b_immediate cmd is_immediate_b in
      finish_command p cmd.

(** The case [TOK_PRINT]. *)
Definition parse_print (p : Parser) : option Command * Parser :=
  let p := snd (advance p) in
  let cmd := create_command CMD_PRINT in
  if negb (is_base (current p)) then
    (None, print_error p "Invalid base for PRINT command." (Some cmd))
  else
    let cmd := set_val_a cmd (str_val (strdup (tok_lexeme (current p)))) in
    let p := snd (advance p) in
    let '(ok, b, is_immediate, p) := parse_var_or_imm p (val_b cmd) false in
    let cmd := set_val_b cmd b in
    if negb ok then (None, print_error p "Invalid operand for PRINT command." (Some cmd))
    else
      let cmd := set_is_b_immediate cmd is_immediate in
      finish_command p cmd.

Definition parse_cmd (p : Parser) : option Command * Parser :=
  let p := skip_nls p in
  if had_error p then (None, p)
  else if TokenType_eqb (tok_type (current p)) TOK_EOF then (None, p)
  else
    match tok_type (current p) with
    | TOK_ADD => parse_arith CMD_ADD p
    | TOK_SUB => parse_arith CMD_SUB p
    | TOK_MOV => parse_mov p
    | TOK_CMP => parse_compare CMD_CMP p
    | TOK_CMP_U => parse_compare CMD_CMP_U p
    | TOK_PRINT => parse_print p
    | _ => (None, skip_line (print_error p "Unrecognized command." None))
    end.

(** ** The command list *)

(** The recovery block at the end of the loop body of [parse_commands]:
    after an error the rest of the line is skipped and the flag cleared. *)
Definition recover (p : Parser) : Parser :=
  if had_error p then set_had_error (skip_line p) false else p.

(** The loop of [parse_commands]; [cmds] is the list from [head] to
    [tail].  It gives [None] only when [fuel] rounds do not reach the end
    of the input. *)
Fixpoint parse_commands_loop (fuel : nat) (p : Parser) (cmds : list Command)
  : option (list Command * Parser) :=
  match fuel with
  | O => None
  | S fuel' =>
      if negb (is_at_end p) then
        let (cmd, p) := parse_cmd p in
        let cmds := match cmd with
                    | Some c => cmds ++ [c]
                    | None => cmds
                    end in
        let p := recover p in
        parse_commands_loop fuel' p cmds
      else Some (cmds, p)
  end.

(** Every round consumes a token ([parse_commands_terminates] below), so
    one round per token left and one more to see the sentinel are enough.
    The call of [print_commands], which prints the finished list and is
    defined elsewhere, is left out. *)
Definition parse_commands (p : Parser) : option (list Command * Parser) :=
  parse_commands_loop (S (S (tokens_left p))) p [].

(** ** The lexer *)

Definition is_blank (c : ascii) : bool :=
  Ascii.eqb c " " || Ascii.eqb c (ascii_of_nat 9) || Ascii.eqb c (ascii_of_nat 13).

Definition is_word_char (c : ascii) : bool :=
  negb (is_blank c) && negb (Ascii.eqb c LF) && negb (Ascii.eqb c NUL).

(** Modelled from the spec: the kind of a word.  The instruction keywords
    are the lower-case names of the instructions; a word that begins with
    a decimal digit is a number; any other word is an identifier. *)
Definition word_type (w : cstring) : TokenType :=
  let s := string_of_list_ascii w in
  if String.eqb s "add" then TOK_ADD
  else if String.eqb s "sub" then TOK_SUB
  else if String.eqb s "mov" then TOK_MOV
  else if String.eqb s "cmp" then TOK_CMP
  else if String.eqb s "cmp_u" then TOK_CMP_U
  else if String.eqb s "print" then TOK_PRINT
  else if is_decimal (hd NUL w) then TOK_NUM
  else TOK_IDENT.

(** Modelled from the spec: the token sequence of a source text (lexer.c
    is not part of the translated file).  Words are separated by blanks;
    every line break is a token; the sentinel closes the sequence; lines
    and columns count from 1.  [in_word] tells that the previous character
    belongs to a word whose token was already produced. *)
Fixpoint lex (in_word : bool) (src : cstring) (line col : nat) : list Token :=
  match src with
  | [] => [mkToken TOK_EOF [] 0 line col]
  | c :: rest =>
      if Ascii.eqb c LF then
        mkToken TOK_NL src 1 line col :: lex false rest (S line) 1
      else if is_blank c then lex false rest line (S col)
      else if in_word then lex true rest line (S col)
      else
        let w := take_while is_word_char src in
        mkToken (word_type w) src (List.length w) line col
          :: lex true rest line (S col)
  end.

Definition tokenize (src : cstring) : Lexer := lex false src 1 1.

(** The parser over a source text. *)
Definition parse_source (src : cstring) : option (list Command * Parser) :=
  parse_commands (parser_init (tokenize src) 0).

(** ** Relations between parser states *)

(** A state [q] reached from [p] by consuming tokens only. *)
Definition follows (q p : Parser) : Prop :=
  tokens_left q <= tokens_left p /\ had_error q = had_error p /\
  stdout q = stdout p.

(** A state reached by consuming tokens and printing reports. *)
Definition later (q p : Parser) : Prop := tokens_left q <= tokens_left p.

(** ** Properties of commands *)

(** An operand slot that holds a register index holds one of the 32
    registers. *)
Definition register_in_range (o : Operand) : Prop :=
  match o with
  | base r => (0 <= r <= 31)%Z
  | _ => True
  end.

Definition registers_in_range (c : Command) : Prop :=
  register_in_range (destination c) /\ register_in_range (val_a c) /\
  register_in_range (val_b c).

Definition string_flags_clear (c : Command) : Prop :=
  is_a_string c = false /\ is_b_string c = false.

(** A PRINT command keeps a string in operand A. *)
Definition print_holds_string (c : Command) : Prop :=
  cmd_type c = CMD_PRINT -> exists s, val_a c = str_val s.

(** ** Well-formed instructions *)

(** What an operand token denotes: a register that [parse_variable]
    accepts, or a literal that [parse_imm] accepts. *)
Inductive SourceOperand : Type :=
  | SrcReg (r : Z)
  | SrcImm (v : Z).

Definition source_operand (t : Token) : option SourceOperand :=
  match tok_type t with
  | TOK_IDENT =>
      if is_variable t then option_map SrcReg (parse_variable t) else None
  | TOK_NUM => option_map SrcImm (imm_value t)
  | _ => None
  end.

Definition source_register (t : Token) : option Z :=
  match source_operand t with
  | Some (SrcReg r) => Some r
  | _ => None
  end.

Definition operand_value (s : SourceOperand) : Operand :=
  match s with
  | SrcReg r => base r
  | SrcImm v => num_val v
  end.

Definition is_literal (s : SourceOperand) : bool :=
  match s with
  | SrcReg _ => false
  | SrcImm _ => true
  end.

(** The tokens of one instruction, by the shape of its grammar. *)
Inductive Instruction : Type :=
  | I_arith (kw d a b : Token)
  | I_mov (kw d a : Token)
  | I_compare (kw a b : Token)
  | I_print (kw sig v : Token).

Definition instruction_tokens (i : Instruction) : list Token :=
  match i with
  | I_arith kw d a b => [kw; d; a; b]
  | I_mov kw d a => [kw; d; a]
  | I_compare kw a b => [kw; a; b]
  | I_print kw sig v => [kw; sig; v]
  end.

(** The command of a well-formed instruction, slot by slot as the grammar
    table lays them out, for a given string in operand A of a PRINT;
    [None] when an operand is not of the required form. *)
Definition instruction_command (print_string : Token -> cstring)
           (i : Instruction) : option Command :=
  match i with
  | I_arith kw d a b =>
      match match tok_type kw with
            | TOK_ADD => Some CMD_ADD
            | TOK_SUB => Some CMD_SUB
            | _ => None
            end,
            source_register d, source_operand a, source_operand b with
      | Some type, Some rd, Some sa, Some sb =>
          Some (mkCommand type (base rd) (operand_value sa) (operand_value sb)
                          (is_literal sa) false (is_literal sb) false BRANCH_NONE)
      | _, _, _, _ => None
      end
  | I_mov kw d a =>
      match tok_type kw, source_register d, source_operand a with
      | TOK_MOV, Some rd, Some sa =>
          Some (mkCommand CMD_MOV (base rd) (operand_value sa) (num_val 0)
                          (is_literal sa) false false false BRANCH_NONE)
      | _, _, _ => None
      end
  | I_compare kw a b =>
      match match tok_type kw with
            | TOK_CMP => Some CMD_CMP
            | TOK_CMP_U => Some CMD_CMP_U
            | _ => None
            end,
            source_operand a, source_operand b with
      | Some type, Some sa, Some sb =>
          Some (mkCommand type (num_val 0) (operand_value sa) (operand_value sb)
                          (is_literal sa) false (is_literal sb) false BRANCH_NONE)
      | _, _, _ => None
      end
  | I_print kw sig v =>
      match tok_type kw, tok_type sig, is_base sig, source_operand v with
      | TOK_PRINT, TOK_IDENT, true, Some sv =>
          Some (mkCommand CMD_PRINT (num_val 0)
                          (str_val (print_string sig)) (operand_value sv)
                          false false (is_literal sv) false BRANCH_NONE)
      | _, _, _, _ => None
      end
  end.

(** The command a well-formed instruction stands for, as the grammar
    table documents it: operand A of a PRINT is the base signifier, the
    one character of the signifier token. *)
Definition expected_command (i : Instruction) : option Command :=
  instruction_command token_text i.

(** The command the productions of [parse_cmd] build from the tokens of
    a well-formed instruction: operand A of a PRINT is what [strdup]
    copies from the lexeme of the signifier token.  In every other slot,
    and for every other kind, it is the documented command. *)
Definition built_command (i : Instruction) : option Command :=
  instruction_command (fun sig => strdup (tok_lexeme sig)) i.

(** The ways a single instruction can end: at a newline, at the end of
    the input, and with or without the lexer's own sentinel token. *)
Definition line_terminator (term : list Token) : bool :=
  match term with
  | [] => true
  | [t] => TokenType_eqb (tok_type t) TOK_NL || TokenType_eqb (tok_type t) TOK_EOF
  | [t; e] => TokenType_eqb (tok_type t) TOK_NL && TokenType_eqb (tok_type e) TOK_EOF
  | _ => false
  end.

(** ** Numeric literals, as a grammar *)

Definition is_hex (c : ascii) : bool :=
  in_range "0" "9" c || in_range "a" "f" c || in_range "A" "F" c.

Definition is_binary (c : ascii) : bool :=
  Ascii.eqb c "0" || Ascii.eqb c "1".

Definition digit_value (c : ascii) : Z :=
  if in_range "0" "9" c then code c - code "0"
  else if in_range "a" "f" c then code c - code "a" + 10
  else if in_range "A" "F" c then code c - code "A" + 10
  else 0.

(** The number that a string of digits denotes in base [b]: every digit
    weighs [b] to the number of digits behind it. *)
Fixpoint denotes (b : Z) (ds : cstring) : Z :=
  match ds with
  | [] => 0
  | c :: r => digit_value c * b ^ Z.of_nat (List.length r) + denotes b r
  end.

(** The literals [parse_imm] accepts and the numbers they denote: [0x] or
    [0X] and hexadecimal digits, [0b] or [0B] and binary digits, or decimal
    digits that do not begin with [0] unless the text is [0] alone. *)
Definition literal_value (text : cstring) : option Z :=
  match text with
  | z :: p :: ds =>
      if Ascii.eqb z "0" then
        if Ascii.eqb p "x" || Ascii.eqb p "X" then
          if forallb is_hex ds then Some (denotes 16 ds) else None
        else if Ascii.eqb p "b" || Ascii.eqb p "B" then
          if forallb is_binary ds then Some (denotes 2 ds) else None
        else None
      else if forallb is_decimal text then Some (denotes 10 text) else None
  | _ => if forallb is_decimal text then Some (denotes 10 text) else None
  end.

(** ** Register names, as a grammar *)

Definition is_sign (sg : cstring) : Prop :=
  sg = [] \/ sg = ["+"%char] \/ sg = ["-"%char].

Definition signed (sg : cstring) (v : Z) : Z :=
  match sg with
  | [c] => if Ascii.eqb c "-" then - v else v
  | _ => v
  end.

(** The texts that [strtol] converts in full: white space, one optional
    sign, and one or more decimal digits. *)
Definition integer_form (r : cstring) (n : Z) : Prop :=
  exists ws sg ds,
    r = ws ++ sg ++ ds /\ forallb isspace ws = true /\ is_sign sg /\
    ds <> [] /\ forallb is_decimal ds = true /\
    n = signed sg (denotes 10 ds).

(** The texts accepted as registers. *)
Definition register_text (text : cstring) (n : Z) : Prop :=
  exists r, text = "x"%char :: r /\ integer_form r n /\ (0 <= n <= 31)%Z.

(** The narrower reading: [x] and decimal digits only. *)
Definition plain_register_text (text : cstring) (n : Z) : Prop :=
  exists ds, text = "x"%char :: ds /\ ds <> [] /\
             forallb is_decimal ds = true /\
             n = denotes 10 ds /\ (0 <= n <= 31)%Z.

(** The character behind the token is not a decimal digit (a lexer ends a
    word at a blank, a line break or the end of the text). *)
Definition token_delimited (t : Token) : Prop :=
  token_wf t /\ is_decimal (char_at (tok_lexeme t) (tok_length t)) = false.

(** ** Sample inputs *)

Definition nl : cstring := [LF].

(** A token that is the last word of its text. *)
Definition word (type : TokenType) (s : string) : Token :=
  mkToken type (str s) (String.length s) 1 1.

Definition nl_token : Token := mkToken TOK_NL nl 1 1 1.

(** A parser whose current token is [t], with nothing behind it. *)
Definition at_token (t : Token) : Parser :=
  mkParser [] t eof_token false 0 [].

(** The commands and the reports of a whole run. *)
Definition run (src : cstring) : option (list Command * list Diagnostic) :=
  option_map (fun r => (fst r, stdout (snd r))) (parse_source src).

Definition source_bogus : cstring :=
  str "add x1 x2 3" ++ nl ++ str "bogus" ++ nl ++ str "mov x3 x1" ++ nl.

Definition source_missing_operand : cstring :=
  str "add x1 x2" ++ nl ++ str "mov x3 x1" ++ nl.

Definition source_print : cstring := str "print x 0xFF" ++ nl.

Definition source_keyword_operand : cstring := str "cmp add x2" ++ nl.

(** The instruction [print x 0xFF] as the lexer delivers it: every lexeme
    is the source from the first character of the token on. *)
Definition print_x_0xFF : Instruction :=
  I_print (mkToken TOK_PRINT source_print 5 1 1)
          (mkToken TOK_IDENT (str "x 0xFF" ++ nl) 1 1 7)
          (mkToken TOK_NUM (str "0xFF" ++ nl) 4 1 9).

(** The run over [print x 0xFF], evaluated. *)
Definition print_run : list Command * Parser :=
  Eval vm_compute in
    match parse_source source_print with
    | Some r => r
    | None => ([], at_token eof_token)
    end.

(** ** The parser over a token stream *)

(** The state [parser_init] builds over the stream [ts], for a given
    error flag and given reports: [parser_init lx map] is
    [load lx false map []]. *)
Definition load (ts : Lexer) (e : bool) (m : LabelMap) (o : list Diagnostic)
  : Parser :=
  let (c, lx1) := lexer_next_token ts in
  let (n, lx2) := lexer_next_token lx1 in
  mkParser lx2 c n e m o.

(** The loop of [parse_commands] started at [p] ends with the result [r]. *)
Definition runs (p : Parser) (r : list Command * Parser) : Prop :=
  exists fuel, parse_commands_loop fuel p [] = Some r.

(** The same state with the reports [o] printed before its own. *)
Definition with_reports (o : list Diagnostic) (p : Parser) : Parser :=
  mkParser (lexer p) (current p) (next p) (had_error p) (label_map p)
           (o ++ stdout p).

(** A token inside a line: neither a line break nor the sentinel. *)
Definition inside_line (t : Token) : bool :=
  negb (TokenType_eqb (tok_type t) TOK_NL) &&
  negb (TokenType_eqb (tok_type t) TOK_EOF).

(** A token that opens no instruction: it reaches the [default] case of
    [parse_cmd]. *)
Definition opens_no_instruction (t : Token) : bool :=
  match tok_type t with
  | TOK_IDENT | TOK_NUM | TOK_OTHER => true
  | _ => false
  end.

(** The keywords whose first operand is the destination register. *)
Definition takes_destination (t : Token) : bool :=
  match tok_type t with
  | TOK_ADD | TOK_SUB | TOK_MOV => true
  | _ => false
  end.

(** ** What one call of [parse_cmd] leaves behind *)

(** A call made with the error flag clear returns a command and prints
    nothing, or returns nothing at the end of the input, or returns
    nothing, prints one report and raises the flag. *)
Inductive Outcome (p : Parser) : option Command * Parser -> Prop :=
  | Parsed (c : Command) (q : Parser) :
      had_error q = false -> stdout q = stdout p ->
      Outcome p (Some c, q)
  | Finished (q : Parser) :
      had_error q = false -> stdout q = stdout p -> is_at_end q = true ->
      Outcome p (None, q)
  | Failed (q : Parser) (d : Diagnostic) :
      had_error q = true -> stdout q = stdout p ++ [d] ->
      Outcome p (None, q).

(** ** The shape of a command *)

Definition operand_is_word (o : Operand) : Prop :=
  match o with
  | num_val v => (0 <= v < 2 ^ 64)%Z
  | _ => True
  end.

(** The operand of a register-or-immediate slot agrees with the flag of
    the slot. *)
Definition slot_agrees (o : Operand) (is_immediate : bool) : bool :=
  match o with
  | base _ => negb is_immediate
  | num_val _ => is_immediate
  | str_val _ => false
  end.

Definition is_register (o : Operand) : bool :=
  match o with
  | base _ => true
  | _ => false
  end.

(** A slot the command does not use: as [create_command] left it. *)
Definition is_untouched (o : Operand) : bool :=
  match o with
  | num_val Z0 => true
  | _ => false
  end.

Definition starts_with_signifier (o : Operand) : bool :=
  match o with
  | str_val (c :: _) =>
      Ascii.eqb c "d" || Ascii.eqb c "x" || Ascii.eqb c "s" || Ascii.eqb c "b"
  | _ => false
  end.

(** Which slots a command of each kind fills, and with what. *)
Definition command_shape (c : Command) : bool :=
  match cmd_type c with
  | CMD_ADD | CMD_SUB =>
      is_register (destination c) &&
      slot_agrees (val_a c) (is_a_immediate c) &&
      slot_agrees (val_b c) (is_b_immediate c)
  | CMD_MOV =>
      is_register (destination c) &&
      slot_agrees (val_a c) (is_a_immediate c) &&
      is_untouched (val_b c) && negb (is_b_immediate c)
  | CMD_CMP | CMD_CMP_U =>
      is_untouched (destination c) &&
      slot_agrees (val_a c) (is_a_immediate c) &&
      slot_agrees (val_b c) (is_b_immediate c)
  | CMD_PRINT =>
      is_untouched (destination c) &&
      starts_with_signifier (val_a c) && negb (is_a_immediate c) &&
      slot_agrees (val_b c) (is_b_immediate c)
  end.

Definition operands_are_words (c : Command) : Prop :=
  operand_is_word (destination c) /\ operand_is_word (val_a c) /\
  operand_is_word (val_b c).

(** ** Reading tokens one by one *)

(** [n] calls of [advance]: the tokens returned, in order, and the state
    reached. *)
Fixpoint advance_n (n : nat) (p : Parser) : list Token * Parser :=
  match n with
  | O => ([], p)
  | S n' =>
      let (t, q) := advance p in
      let (ts, r) := advance_n n' q in
      (t :: ts, r)
  end.

(** ** Programs, line by line *)

Definition is_some {A : Type} (x : option A) : bool :=
  match x with
  | Some _ => true
  | None => false
  end.

(** The operands in front of a register-or-immediate slot of the
    instruction that [kw] opens, all well formed. *)
Definition operands_before (kw : Token) (before : list Token) : bool :=
  match tok_type kw, before with
  | TOK_ADD, [d] | TOK_SUB, [d] | TOK_MOV, [d] =>
      is_some (source_register d)
  | TOK_ADD, [d; a] | TOK_SUB, [d; a] =>
      is_some (source_register d) && is_some (source_operand a)
  | TOK_CMP, [] | TOK_CMP_U, [] => true
  | TOK_CMP, [a] | TOK_CMP_U, [a] => is_some (source_operand a)
  | TOK_PRINT, [sig] =>
      TokenType_eqb (tok_type sig) TOK_IDENT && is_base sig
  | _, _ => false
  end.

(** An identifier or a number that the operand parsers reject. *)
Definition rejected_operand (t : Token) : bool :=
  (TokenType_eqb (tok_type t) TOK_IDENT || TokenType_eqb (tok_type t) TOK_NUM)
  && negb (is_some (source_operand t)).

(** The lines whose parse the theorems below describe in full: a blank
    line; a well-formed instruction; a line that begins with a token that
    opens no instruction; an ADD, SUB or MOV whose first operand is no
    register; an instruction with an identifier or a number that is
    rejected in a register-or-immediate slot; a PRINT whose next token is
    no base signifier; and a well-formed instruction with further tokens
    behind it. *)
Inductive Line : Type :=
  | Blank
  | Good (i : Instruction)
  | Unknown (bad : Token) (junk : list Token)
  | BadDestination (kw : Token) (junk : list Token)
  | BadOperand (kw : Token) (before : list Token) (bad : Token)
               (junk : list Token)
  | BadBase (kw : Token) (bad : Token) (junk : list Token)
  | Trailing (i : Instruction) (extra : Token) (junk : list Token).

Definition line_tokens (l : Line) : list Token :=
  match l with
  | Blank => []
  | Good i => instruction_tokens i
  | Unknown bad junk => bad :: junk
  | BadDestination kw junk => kw :: junk
  | BadOperand kw before bad junk => kw :: before ++ bad :: junk
  | BadBase kw bad junk => kw :: bad :: junk
  | Trailing i extra junk => instruction_tokens i ++ extra :: junk
  end.

Definition line_ok (l : Line) : bool :=
  match l with
  | Blank => true
  | Good i => is_some (built_command i)
  | Unknown bad junk => opens_no_instruction bad && forallb inside_line junk
  | BadDestination kw junk =>
      takes_destination kw && forallb inside_line junk &&
      match junk with
      | [] => true
      | d :: _ => negb (is_some (source_register d))
      end
  | BadOperand kw before bad junk =>
      operands_before kw before && rejected_operand bad &&
      forallb inside_line junk
  | BadBase kw bad junk =>
      TokenType_eqb (tok_type kw) TOK_PRINT && inside_line bad &&
      negb (is_base bad) && forallb inside_line junk
  | Trailing i extra junk =>
      is_some (built_command i) && inside_line extra &&
      forallb inside_line junk
  end.

Definition line_commands (l : Line) : list Command :=
  match l with
  | Good i =>
      match built_command i with
      | Some c => [c]
      | None => []
      end
  | _ => []
  end.

(** The report of a line; [break] is the line break that ends it. *)
Definition line_reports (l : Line) (break : Token) : list Diagnostic :=
  match l with
  | Blank | Good _ => []
  | Unknown bad _ => [report bad]
  | BadDestination _ junk => [report (hd break junk)]
  | BadOperand _ _ bad _ => [report bad]
  | BadBase _ bad _ => [report bad]
  | Trailing _ extra _ => [report extra]
  end.

(** A program: lines, each with the line break that ends it. *)
Definition Program := list (Line * Token).

Definition program_ok (prog : Program) : bool :=
  forallb (fun lb => line_ok (fst lb) &&
                     TokenType_eqb (tok_type (snd lb)) TOK_NL) prog.

Definition program_tokens (prog : Program) : list Token :=
  flat_map (fun lb => line_tokens (fst lb) ++ [snd lb]) prog.

Definition program_commands (prog : Program) : list Command :=
  flat_map (fun lb => line_commands (fst lb)) prog.

Definition program_reports (prog : Program) : list Diagnostic :=
  flat_map (fun lb => line_reports (fst lb) (snd lb)) prog.

(** What may follow the last line: nothing, or the sentinel. *)
Definition stream_end (ends : list Token) : bool :=
  match ends with
  | [] => true
  | e :: _ => TokenType_eqb (tok_type e) TOK_EOF
  end.

(** ** What a report shows *)

Definition no_terminator (s : cstring) : bool :=
  forallb (fun c => negb (Ascii.eqb c NUL)) s.

(** The report [d] shows the token [t]: its kind, length, line and
    column and, when the characters of the token hold no terminator, its
    text ([EOF] for the sentinel). *)
Definition shows (t : Token) (d : Diagnostic) : Prop :=
  diag_type d = tok_type t /\ diag_length d = tok_length t /\
  diag_line d = tok_line t /\ diag_column d = tok_column t /\
  (no_terminator (token_text t) = true ->
   diag_text d = if TokenType_eqb (tok_type t) TOK_EOF then str "EOF"
                 else token_text t).

(** The tokens a parser over the lexer [lx] can ever hold: those of [lx],
    and the sentinel the lexer yields once they are used up. *)
Definition stream_tokens (lx : Lexer) : list Token := eof_token :: lx.

(** The parser holds tokens of [S] only, and each of its reports was
    printed for a token of [S]. *)
Definition reads_from (S : list Token) (p : Parser) : Prop :=
  In eof_token S /\ In (current p) S /\ In (next p) S /\
  incl (lexer p) S /\
  Forall (fun d => exists t, In t S /\ d = report t) (stdout p).

(** ** More sample inputs *)

(** The run over [add x1 x2 3 / bogus / mov x3 x1], evaluated. *)
Definition bogus_run : list Command * Parser :=
  Eval vm_compute in
    match parse_source source_bogus with
    | Some r => r
    | None => ([], at_token eof_token)
    end.

Definition add_x1_x2_3 : Instruction :=
  I_arith (word TOK_ADD "add") (word TOK_IDENT "x1") (word TOK_IDENT "x2")
          (word TOK_NUM "3").

Definition mov_x3_x1 : Instruction :=
  I_mov (word TOK_MOV "mov") (word TOK_IDENT "x3") (word TOK_IDENT "x1").

(** [add x1 x2 3 / bogus / / mov x3 x1 9 / mov x3 x1], line by line. *)
Definition sample_program : Program :=
  [(Good add_x1_x2_3, nl_token);
   (Unknown (word TOK_IDENT "bogus") [], nl_token);
   (Blank, nl_token);
   (Trailing mov_x3_x1 (word TOK_NUM "9") [], nl_token);
   (Good mov_x3_x1, nl_token)].

(** * Properties *)

(** ** Token kinds and the token buffer *)

Lemma TokenType_eqb_eq (a b : TokenType) : TokenType_eqb a b = true <-> a = b.
Proof. destruct a, b; simpl; split; intro H; try reflexivity; discriminate. Qed.

Lemma TokenType_eqb_neq (a b : TokenType) : TokenType_eqb a b = false <-> a <> b.
Proof.
  destruct a, b; simpl; split; intro H; try reflexivity; try discriminate;
    try (exfalso; apply H; reflexivity).
Qed.

Lemma TokenType_eqb_refl (a : TokenType) : TokenType_eqb a a = true.
Proof. destruct a; reflexivity. Qed.

Lemma tokens_left_at_end (p : Parser) :
  tokens_left p = 0 <-> is_at_end p = true.
Proof.
  unfold tokens_left. destruct (is_at_end p); [tauto|].
  destruct (TokenType_eqb (tok_type (next p)) TOK_EOF); split; intro H;
    try discriminate; lia.
Qed.

Lemma advance_at_end (p : Parser) :
  is_at_end p = true -> advance p = (current p, p).
Proof. unfold advance. intros ->. reflexivity. Qed.

Lemma advance_moves (p : Parser) :
  is_at_end p = false ->
  current (snd (advance p)) = next p /\
  next (snd (advance p)) = fst (lexer_next_token (lexer p)) /\
  lexer (snd (advance p)) = snd (lexer_next_token (lexer p)).
Proof.
  unfold advance. intros ->. simpl.
  destruct (lexer_next_token (lexer p)); simpl. auto.
Qed.

Lemma advance_keeps (p : Parser) :
  had_error (snd (advance p)) = had_error p /\
  stdout (snd (advance p)) = stdout p /\
  label_map (snd (advance p)) = label_map p.
Proof.
  unfold advance. destruct (negb (is_at_end p)); simpl; auto.
  destruct (lexer_next_token (lexer p)); simpl. auto.
Qed.

Lemma advance_decreases (p : Parser) :
  is_at_end p = false -> tokens_left (snd (advance p)) < tokens_left p.
Proof.
  intros E. unfold advance. rewrite E. simpl.
  destruct p as [lx c n e m o]. unfold tokens_left, is_at_end in *. simpl in *.
  rewrite E.
  destruct lx as [|t lx]; simpl.
  - destruct (TokenType_eqb (tok_type n) TOK_EOF); simpl; lia.
  - destruct (TokenType_eqb (tok_type n) TOK_EOF); simpl; [lia|].
    destruct (TokenType_eqb (tok_type t) TOK_EOF); simpl; lia.
Qed.

Lemma advance_le (p : Parser) : tokens_left (snd (advance p)) <= tokens_left p.
Proof.
  destruct (is_at_end p) eqn:E.
  - rewrite advance_at_end by assumption. simpl. lia.
  - apply Nat.lt_le_incl, advance_decreases, E.
Qed.

(** ** The loops leave through their conditions *)

Lemma skip_nls_loop_le (fuel : nat) (p : Parser) :
  tokens_left (skip_nls_loop fuel p) <= tokens_left p.
Proof.
  revert p. induction fuel as [|fuel IH]; intros p; simpl; [lia|].
  unfold consume. destruct (TokenType_eqb (tok_type (current p)) TOK_NL); [|lia].
  etransitivity; [apply IH|apply advance_le].
Qed.

Lemma skip_nls_loop_keeps (fuel : nat) (p : Parser) :
  had_error (skip_nls_loop fuel p) = had_error p /\
  stdout (skip_nls_loop fuel p) = stdout p.
Proof.
  revert p. induction fuel as [|fuel IH]; intros p; simpl; [auto|].
  unfold consume. destruct (TokenType_eqb (tok_type (current p)) TOK_NL); [|auto].
  destruct (IH (snd (advance p))) as [-> ->].
  destruct (advance_keeps p) as (-> & -> & _). auto.
Qed.

Lemma skip_nls_loop_stops (fuel : nat) (p : Parser) :
  tokens_left p <= fuel ->
  TokenType_eqb (tok_type (current (skip_nls_loop fuel p))) TOK_NL = false.
Proof.
  revert p. induction fuel as [|fuel IH]; intros p Hf; simpl.
  - assert (E : is_at_end p = true) by (apply tokens_left_at_end; lia).
    unfold is_at_end in E. apply TokenType_eqb_eq in E. rewrite E. reflexivity.
  - unfold consume.
    destruct (TokenType_eqb (tok_type (current p)) TOK_NL) eqn:E; [|exact E].
    apply IH.
    assert (is_at_end p = false).
    { unfold is_at_end. apply TokenType_eqb_eq in E. rewrite E. reflexivity. }
    pose proof (advance_decreases p H). lia.
Qed.

Lemma skip_nls_stops (p : Parser) :
  TokenType_eqb (tok_type (current (skip_nls p))) TOK_NL = false.
Proof. apply skip_nls_loop_stops. unfold skip_nls. lia. Qed.

Lemma not_line_end_not_at_end (p : Parser) :
  not_line_end p = true -> is_at_end p = false.
Proof.
  unfold not_line_end, is_at_end. intros H.
  apply andb_true_iff in H as [_ H]. now apply negb_true_iff in H.
Qed.

Lemma at_end_line_end (p : Parser) :
  is_at_end p = true -> not_line_end p = false.
Proof.
  unfold not_line_end, is_at_end. intros ->. apply andb_false_r.
Qed.

Lemma skip_line_loop_le (fuel : nat) (p : Parser) :
  tokens_left (skip_line_loop fuel p) <= tokens_left p.
Proof.
  revert p. induction fuel as [|fuel IH]; intros p; simpl; [lia|].
  destruct (not_line_end p); [|lia].
  etransitivity; [apply IH|apply advance_le].
Qed.

Lemma skip_line_loop_keeps (fuel : nat) (p : Parser) :
  had_error (skip_line_loop fuel p) = had_error p /\
  stdout (skip_line_loop fuel p) = stdout p.
Proof.
  revert p. induction fuel as [|fuel IH]; intros p; simpl; [auto|].
  destruct (not_line_end p); [|auto].
  destruct (IH (snd (advance p))) as [-> ->].
  destruct (advance_keeps p) as (-> & -> & _). auto.
Qed.

Lemma skip_line_loop_stops (fuel : nat) (p : Parser) :
  tokens_left p <= fuel -> not_line_end (skip_line_loop fuel p) = false.
Proof.
  revert p. induction fuel as [|fuel IH]; intros p Hf; simpl.
  - apply at_end_line_end, tokens_left_at_end. lia.
  - destruct (not_line_end p) eqn:E; [|exact E].
    apply IH. pose proof (advance_decreases p (not_line_end_not_at_end p E)). lia.
Qed.

Lemma skip_line_stops (p : Parser) : not_line_end (skip_line p) = false.
Proof. apply skip_line_loop_stops. unfold skip_line. lia. Qed.

(** More fuel than tokens changes nothing: the bound is never what ends
    a loop. *)
Lemma skip_nls_loop_fuel (fuel : nat) (p : Parser) :
  tokens_left p <= fuel -> skip_nls_loop fuel p = skip_nls p.
Proof.
  unfold skip_nls. remember (tokens_left p) as n eqn:En.
  revert p fuel En. induction n as [n IH] using lt_wf_ind. intros p fuel En Hf.
  destruct fuel as [|fuel].
  - assert (n = 0) by lia. subst n. rewrite H. reflexivity.
  - destruct n as [|n].
    + simpl. unfold consume.
      assert (E : is_at_end p = true) by (apply tokens_left_at_end; lia).
      unfold is_at_end in E. apply TokenType_eqb_eq in E. rewrite E. reflexivity.
    + simpl. unfold consume.
      destruct (TokenType_eqb (tok_type (current p)) TOK_NL) eqn:E; [|reflexivity].
      assert (A : is_at_end p = false).
      { unfold is_at_end. apply TokenType_eqb_eq in E. rewrite E. reflexivity. }
      pose proof (advance_decreases p A) as D.
      rewrite (IH (tokens_left (snd (advance p)))) with (fuel := fuel) by lia.
      rewrite (IH (tokens_left (snd (advance p)))) with (fuel := n) by lia.
      reflexivity.
Qed.

Lemma skip_line_loop_fuel (fuel : nat) (p : Parser) :
  tokens_left p <= fuel -> skip_line_loop fuel p = skip_line p.
Proof.
  unfold skip_line. remember (tokens_left p) as n eqn:En.
  revert p fuel En. induction n as [n IH] using lt_wf_ind. intros p fuel En Hf.
  destruct fuel as [|fuel].
  - assert (n = 0) by lia. subst n. rewrite H. reflexivity.
  - destruct n as [|n].
    + simpl. rewrite at_end_line_end; [reflexivity|].
      apply tokens_left_at_end. lia.
    + simpl. destruct (not_line_end p) eqn:E; [|reflexivity].
      pose proof (advance_decreases p (not_line_end_not_at_end p E)) as D.
      rewrite (IH (tokens_left (snd (advance p)))) with (fuel := fuel) by lia.
      rewrite (IH (tokens_left (snd (advance p)))) with (fuel := n) by lia.
      reflexivity.
Qed.

(** ** What the operand parsers do to the state *)

Lemma parse_variable_range (t : Token) (r : Z) :
  parse_variable t = Some r -> (0 <= r <= 31)%Z.
Proof.
  unfold parse_variable. destruct (strtol (tl (tok_lexeme t))) as [v e].
  destruct (negb (tok_length t =? 1 + e)); simpl; [discriminate|].
  destruct (v <? 0)%Z eqn:E1; simpl; [discriminate|].
  destruct (31 <? v)%Z eqn:E2; [discriminate|].
  intros [= <-]. apply Z.ltb_ge in E1. apply Z.ltb_ge in E2. lia.
Qed.

(** The outcomes of [parse_variable_operand]: the token is an accepted
    register and is consumed, or nothing changes. *)
Lemma parse_variable_operand_cases (p : Parser) (op : Operand) :
  (exists r, tok_type (current p) = TOK_IDENT /\ is_variable (current p) = true /\
             parse_variable (current p) = Some r /\
             parse_variable_operand p op = (true, base r, snd (advance p)))
  \/ parse_variable_operand p op = (false, op, p).
Proof.
  unfold parse_variable_operand.
  destruct (TokenType_eqb (tok_type (current p)) TOK_IDENT) eqn:E; simpl; [|now right].
  destruct (is_variable (current p)) eqn:V; simpl; [|now right].
  destruct (parse_variable (current p)) as [r|] eqn:P; [|now right].
  left. exists r. apply TokenType_eqb_eq in E. auto.
Qed.

Lemma parse_imm_cases (p : Parser) (op : Operand) :
  (exists v, tok_type (current p) = TOK_NUM /\ imm_value (current p) = Some v /\
             parse_imm p op = (true, num_val v, snd (advance p)))
  \/ parse_imm p op = (false, op, p).
Proof.
  unfold parse_imm.
  destruct (TokenType_eqb (tok_type (current p)) TOK_NUM) eqn:E; simpl; [|now right].
  destruct (imm_value (current p)) as [v|] eqn:P; [|now right].
  left. exists v. apply TokenType_eqb_eq in E. auto.
Qed.

(** The outcomes of [parse_var_or_imm]: a register, an immediate, a
    rejected identifier or number (nothing changes), or a token of another
    kind (the parser advances). *)
Lemma parse_var_or_imm_cases (p : Parser) (op : Operand) (i : bool) :
  (exists r, tok_type (current p) = TOK_IDENT /\ is_variable (current p) = true /\
             parse_variable (current p) = Some r /\
             parse_var_or_imm p op i = (true, base r, false, snd (advance p)))
  \/ (exists v, tok_type (current p) = TOK_NUM /\ imm_value (current p) = Some v /\
                parse_var_or_imm p op i = (true, num_val v, true, snd (advance p)))
  \/ ((tok_type (current p) = TOK_IDENT \/ tok_type (current p) = TOK_NUM) /\
      parse_var_or_imm p op i = (false, op, i, p))
  \/ (tok_type (current p) <> TOK_IDENT /\ tok_type (current p) <> TOK_NUM /\
      parse_var_or_imm p op i = (false, op, i, snd (advance p))).
Proof.
  unfold parse_var_or_imm.
  destruct (TokenType_eqb (tok_type (current p)) TOK_IDENT) eqn:E.
  - apply TokenType_eqb_eq in E.
    destruct (parse_variable_operand_cases p op) as [(r & _ & V & P & ->)| ->]; simpl.
    + left. exists r. auto.
    + right. right. left. auto.
  - apply TokenType_eqb_neq in E.
    destruct (TokenType_eqb (tok_type (current p)) TOK_NUM) eqn:N.
    + apply TokenType_eqb_eq in N.
      destruct (parse_imm_cases p op) as [(v & _ & P & ->)| ->]; simpl.
      * right. left. exists v. auto.
      * right. right. left. auto.
    + apply TokenType_eqb_neq in N. right. right. right. auto.
Qed.

Lemma follows_refl (p : Parser) : follows p p.
Proof. unfold follows. auto. Qed.

Lemma follows_trans (r q p : Parser) : follows r q -> follows q p -> follows r p.
Proof. unfold follows. intros (? & ? & ?) (? & ? & ?). repeat split; try congruence; lia. Qed.

Lemma follows_advance (p : Parser) : follows (snd (advance p)) p.
Proof.
  unfold follows. destruct (advance_keeps p) as (? & ? & _).
  pose proof (advance_le p). auto.
Qed.

Lemma follows_skip_nls (p : Parser) : follows (skip_nls p) p.
Proof.
  unfold follows, skip_nls.
  destruct (skip_nls_loop_keeps (tokens_left p) p).
  pose proof (skip_nls_loop_le (tokens_left p) p). auto.
Qed.

Lemma follows_skip_line (p : Parser) : follows (skip_line p) p.
Proof.
  unfold follows, skip_line.
  destruct (skip_line_loop_keeps (tokens_left p) p).
  pose proof (skip_line_loop_le (tokens_left p) p). auto.
Qed.

Lemma follows_parse_variable_operand (p : Parser) (op : Operand) :
  follows (snd (parse_variable_operand p op)) p.
Proof.
  destruct (parse_variable_operand_cases p op) as [(r & _ & _ & _ & ->)| ->]; simpl.
  - apply follows_advance.
  - apply follows_refl.
Qed.

Lemma follows_parse_var_or_imm (p : Parser) (op : Operand) (i : bool) :
  follows (snd (parse_var_or_imm p op i)) p.
Proof.
  destruct (parse_var_or_imm_cases p op i)
    as [(r & _ & _ & _ & ->)|[(v & _ & _ & ->)|[(_ & ->)|(_ & _ & ->)]]]; simpl;
    auto using follows_advance, follows_refl.
Qed.

Lemma print_error_tokens (p : Parser) (m : string) (c : option Command) :
  tokens_left (print_error p m c) = tokens_left p.
Proof. reflexivity. Qed.

Lemma print_error_flag (p : Parser) (m : string) (c : option Command) :
  had_error (print_error p m c) = true.
Proof. reflexivity. Qed.

Lemma finish_command_later (p : Parser) (c : Command) :
  later (snd (finish_command p c)) p.
Proof.
  unfold finish_command, later. destruct (not_line_end p); cbn [snd].
  - rewrite print_error_tokens. lia.
  - apply advance_le.
Qed.

Ltac split_call :=
  match goal with
  | |- context [parse_variable_operand ?p ?o] =>
      let H := fresh "F" in
      pose proof (follows_parse_variable_operand p o) as H;
      destruct (parse_variable_operand p o) as [[? ?] ?]; cbn [snd fst] in H
  | |- context [parse_var_or_imm ?p ?o ?i] =>
      let H := fresh "F" in
      pose proof (follows_parse_var_or_imm p o i) as H;
      destruct (parse_var_or_imm p o i) as [[[? ?] ?] ?]; cbn [snd fst] in H
  end.

Ltac later_tac :=
  repeat first
    [ split_call
    | match goal with
      | |- context [if negb ?b then _ else _] => destruct b; cbn [negb snd fst]
      | |- context [finish_command ?p ?c] =>
          pose proof (finish_command_later p c); unfold later in *;
          destruct (finish_command p c); cbn [snd fst] in *
      end ];
  unfold follows, later in *; cbn [snd fst] in *;
  rewrite ?print_error_tokens;
  repeat match goal with H : _ /\ _ |- _ => destruct H end; try lia.

Lemma parse_arith_later (type : CommandType) (p : Parser) :
  later (snd (parse_arith type p)) (snd (advance p)).
Proof. unfold parse_arith. later_tac. Qed.

Lemma parse_mov_later (p : Parser) :
  later (snd (parse_mov p)) (snd (advance p)).
Proof. unfold parse_mov. later_tac. Qed.

Lemma parse_compare_later (type : CommandType) (p : Parser) :
  later (snd (parse_compare type p)) (snd (advance p)).
Proof. unfold parse_compare. later_tac. Qed.

Lemma parse_print_later (p : Parser) :
  later (snd (parse_print p)) (snd (advance p)).
Proof.
  unfold parse_print.
  destruct (negb (is_base (current (snd (advance p))))); cbn [snd].
  - unfold later. rewrite print_error_tokens. lia.
  - pose proof (advance_le (snd (advance p))). later_tac.
Qed.

(** Every call of [parse_cmd] away from the end of the input consumes at
    least one token. *)
Lemma parse_cmd_progress (p : Parser) :
  had_error p = false -> is_at_end p = false ->
  tokens_left (snd (parse_cmd p)) < tokens_left p.
Proof.
  intros He Hp. unfold parse_cmd.
  destruct (follows_skip_nls p) as (Hl & Hh & _).
  rewrite Hh, He.
  assert (Pos : 0 < tokens_left p).
  { destruct (tokens_left p) eqn:E; [|lia].
    apply tokens_left_at_end in E. congruence. }
  pose proof (skip_nls_stops p) as Hn.
  remember (skip_nls p) as q eqn:Eq. clear Eq.
  destruct (TokenType_eqb (tok_type (current q)) TOK_EOF) eqn:E; simpl.
  - assert (tokens_left q = 0) by (apply tokens_left_at_end; exact E). lia.
  - pose proof (advance_decreases q E) as D.
    pose proof (parse_arith_later CMD_ADD q) as A1.
    pose proof (parse_arith_later CMD_SUB q) as A2.
    pose proof (parse_mov_later q) as A3.
    pose proof (parse_compare_later CMD_CMP q) as A4.
    pose proof (parse_compare_later CMD_CMP_U q) as A5.
    pose proof (parse_print_later q) as A6.
    unfold later in *.
    assert (Df : tokens_left (skip_line (print_error q "Unrecognized command." None))
                 < tokens_left q).
    { unfold skip_line. rewrite print_error_tokens.
      destruct (tokens_left q) as [|n] eqn:T; [lia|]. simpl.
      unfold not_line_end. simpl. rewrite Hn, E. simpl.
      eapply Nat.le_lt_trans; [apply skip_line_loop_le|].
      pose proof (advance_decreases (print_error q "Unrecognized command." None)) as D2.
      rewrite print_error_tokens in D2. rewrite T in D2. apply D2. exact E. }
    destruct (tok_type (current q)); simpl; try lia; discriminate.
Qed.

Lemma recover_spec (p : Parser) :
  tokens_left (recover p) <= tokens_left p /\ had_error (recover p) = false.
Proof.
  unfold recover. destruct (had_error p) eqn:E; simpl; [|auto].
  split; [|reflexivity].
  change (tokens_left (set_had_error (skip_line p) false))
    with (tokens_left (skip_line p)).
  apply follows_skip_line.
Qed.

Lemma parse_commands_loop_unfold (fuel : nat) (p : Parser) (cmds : list Command) :
  parse_commands_loop (S fuel) p cmds =
  if negb (is_at_end p) then
    parse_commands_loop fuel (recover (snd (parse_cmd p)))
      (match fst (parse_cmd p) with Some c => cmds ++ [c] | None => cmds end)
  else Some (cmds, p).
Proof.
  simpl. destruct (negb (is_at_end p)); [|reflexivity].
  destruct (parse_cmd p) as [c q]. reflexivity.
Qed.

(** With one round of fuel per token left and one to spare, the loop of
    [parse_commands] ends at the sentinel. *)
Lemma parse_commands_loop_ends (fuel : nat) (p : Parser) (cmds : list Command) :
  had_error p = false -> tokens_left p < fuel ->
  exists cmds' p', parse_commands_loop fuel p cmds = Some (cmds', p') /\
                   is_at_end p' = true.
Proof.
  revert p cmds. induction fuel as [|fuel IH]; intros p cmds He Hf; [lia|].
  rewrite parse_commands_loop_unfold.
  destruct (is_at_end p) eqn:E; simpl.
  - exists cmds, p. auto.
  - pose proof (parse_cmd_progress p He E) as Pr.
    destruct (recover_spec (snd (parse_cmd p))) as [Rl Rh].
    apply IH; [exact Rh|lia].
Qed.

(** ** Every command that [parse_cmd] returns *)

Ltac operand_cases :=
  match goal with
  | H : context [parse_variable_operand ?p ?o] |- _ =>
      let r := fresh "r" in let R := fresh "R" in let E := fresh "E" in
      destruct (parse_variable_operand_cases p o) as [(r & _ & _ & R & E)|E];
      [apply parse_variable_range in R|]; rewrite E in H; clear E;
      cbn [negb] in H
  | H : context [parse_var_or_imm ?p ?o ?i] |- _ =>
      let r := fresh "r" in let R := fresh "R" in let E := fresh "E" in
      destruct (parse_var_or_imm_cases p o i)
        as [(r & _ & _ & R & E)|[(r & _ & _ & E)|[(_ & E)|(_ & _ & E)]]];
      [apply parse_variable_range in R| | |]; rewrite E in H; clear E;
      cbn [negb] in H
  end.

Lemma finish_command_some (p q : Parser) (c c' : Command) :
  finish_command p c = (Some c', q) ->
  c' = c /\ q = snd (advance p) /\ not_line_end p = false.
Proof.
  unfold finish_command. destruct (not_line_end p); [discriminate|].
  intros [= <- <-]. auto.
Qed.

Ltac finish_cases :=
  match goal with
  | H : finish_command _ _ = (Some _, _) |- _ =>
      apply finish_command_some in H; destruct H as (-> & -> & _)
  end.

Ltac command_tac :=
  repeat operand_cases; try discriminate; finish_cases;
  unfold registers_in_range, string_flags_clear, print_holds_string;
  cbn; repeat split; try lia; try discriminate; eauto.

Lemma parse_arith_command (type : CommandType) (p q : Parser) (c : Command) :
  parse_arith type p = (Some c, q) ->
  registers_in_range c /\ string_flags_clear c /\ cmd_type c = type.
Proof. unfold parse_arith. intros H. command_tac. Qed.

Lemma parse_mov_command (p q : Parser) (c : Command) :
  parse_mov p = (Some c, q) ->
  registers_in_range c /\ string_flags_clear c /\ cmd_type c = CMD_MOV.
Proof. unfold parse_mov. intros H. command_tac. Qed.

Lemma parse_compare_command (type : CommandType) (p q : Parser) (c : Command) :
  parse_compare type p = (Some c, q) ->
  registers_in_range c /\ string_flags_clear c /\ cmd_type c = type.
Proof. unfold parse_compare. intros H. command_tac. Qed.

Lemma parse_print_command (p q : Parser) (c : Command) :
  parse_print p = (Some c, q) ->
  registers_in_range c /\ string_flags_clear c /\ cmd_type c = CMD_PRINT /\
  exists s, val_a c = str_val s.
Proof.
  unfold parse_print. intros H.
  destruct (negb (is_base (current (snd (advance p))))); [discriminate|].
  command_tac.
Qed.

Lemma parse_cmd_command (p q : Parser) (c : Command) :
  parse_cmd p = (Some c, q) ->
  registers_in_range c /\ string_flags_clear c /\ print_holds_string c.
Proof.
  unfold parse_cmd. intros H.
  destruct (had_error (skip_nls p)); [discriminate|].
  destruct (TokenType_eqb (tok_type (current (skip_nls p))) TOK_EOF);
    [discriminate|].
  unfold print_holds_string.
  destruct (tok_type (current (skip_nls p)));
    try discriminate;
    first [ apply parse_arith_command in H
          | apply parse_mov_command in H
          | apply parse_compare_command in H
          | apply parse_print_command in H ];
    intuition (try congruence; eauto).
Qed.

(** A property of every command of [parse_cmd] holds for the whole list. *)
Lemma parse_commands_loop_Forall (P : Command -> Prop) :
  (forall p c q, parse_cmd p = (Some c, q) -> P c) ->
  forall fuel p cmds cmds' p',
    Forall P cmds ->
    parse_commands_loop fuel p cmds = Some (cmds', p') ->
    Forall P cmds'.
Proof.
  intros HP. induction fuel as [|fuel IH]; intros p cmds cmds' p' Hc H;
    [discriminate|].
  rewrite parse_commands_loop_unfold in H.
  destruct (negb (is_at_end p)).
  - apply IH in H; [exact H|].
    destruct (parse_cmd p) as [[c|] q] eqn:E; simpl; [|exact Hc].
    apply Forall_app. split; [exact Hc|].
    constructor; [|constructor]. eapply HP, E.
  - injection H as <- <-. exact Hc.
Qed.

(** A run that ends does not depend on the rounds it was allowed. *)
Lemma parse_commands_loop_more_fuel (fuel : nat) (p : Parser)
      (cmds : list Command) (r : list Command * Parser) :
  parse_commands_loop fuel p cmds = Some r ->
  forall fuel', fuel <= fuel' -> parse_commands_loop fuel' p cmds = Some r.
Proof.
  revert p cmds. induction fuel as [|fuel IH]; intros p cmds H fuel' Hf;
    [discriminate|].
  destruct fuel' as [|fuel']; [lia|].
  rewrite parse_commands_loop_unfold in *.
  destruct (negb (is_at_end p)); [|exact H].
  apply IH; [exact H|lia].
Qed.

(** ** A well-formed instruction on its own *)

Lemma source_operand_inv (t : Token) (s : SourceOperand) :
  source_operand t = Some s ->
  (exists r, s = SrcReg r /\ tok_type t = TOK_IDENT /\ is_variable t = true /\
             parse_variable t = Some r)
  \/ (exists v, s = SrcImm v /\ tok_type t = TOK_NUM /\ imm_value t = Some v).
Proof.
  unfold source_operand. destruct (tok_type t); try discriminate.
  - destruct (is_variable t); [|discriminate].
    destruct (parse_variable t) as [r|]; [|discriminate].
    intros [= <-]. left. exists r. auto.
  - destruct (imm_value t) as [v|]; [|discriminate].
    intros [= <-]. right. exists v. auto.
Qed.

Lemma source_register_inv (t : Token) (r : Z) :
  source_register t = Some r ->
  tok_type t = TOK_IDENT /\ is_variable t = true /\ parse_variable t = Some r.
Proof.
  unfold source_register. destruct (source_operand t) as [[r'|v]|] eqn:E;
    try discriminate.
  intros [= <-].
  destruct (source_operand_inv t _ E) as [(r & [= <-] & H)|(v & [=] & _)]. exact H.
Qed.

(** [advance] on a token that is not the sentinel. *)
Lemma advance_step (lx : Lexer) (c n : Token) (e : bool) (m : LabelMap)
      (o : list Diagnostic) :
  tok_type c <> TOK_EOF ->
  snd (advance (mkParser lx c n e m o)) =
  mkParser (snd (lexer_next_token lx)) n (fst (lexer_next_token lx)) e m o.
Proof.
  intros H. apply TokenType_eqb_neq in H.
  unfold advance, is_at_end. simpl. rewrite H. simpl.
  destruct (lexer_next_token lx). reflexivity.
Qed.

Lemma parse_variable_operand_register (lx : Lexer) (c n : Token) (e : bool)
      (m : LabelMap) (o : list Diagnostic) (op : Operand) (r : Z) :
  source_register c = Some r ->
  parse_variable_operand (mkParser lx c n e m o) op =
  (true, base r,
   mkParser (snd (lexer_next_token lx)) n (fst (lexer_next_token lx)) e m o).
Proof.
  intros H. apply source_register_inv in H as (T & V & P).
  unfold parse_variable_operand. simpl. rewrite T, V, P. simpl.
  rewrite advance_step by congruence. reflexivity.
Qed.

Lemma parse_var_or_imm_operand (lx : Lexer) (c n : Token) (e : bool)
      (m : LabelMap) (o : list Diagnostic) (op : Operand) (i : bool)
      (s : SourceOperand) :
  source_operand c = Some s ->
  parse_var_or_imm (mkParser lx c n e m o) op i =
  (true, operand_value s, is_literal s,
   mkParser (snd (lexer_next_token lx)) n (fst (lexer_next_token lx)) e m o).
Proof.
  intros H.
  destruct (source_operand_inv c s H) as [(r & -> & T & V & P)|(v & -> & T & P)];
    unfold parse_var_or_imm, parse_variable_operand, parse_imm; simpl;
    rewrite T; simpl.
  - rewrite V, P. simpl. rewrite advance_step by congruence. reflexivity.
  - rewrite P. simpl. rewrite advance_step by congruence. reflexivity.
Qed.

Lemma skip_nls_here (p : Parser) :
  tok_type (current p) <> TOK_NL -> skip_nls p = p.
Proof.
  intros H. apply TokenType_eqb_neq in H. unfold skip_nls.
  destruct (tokens_left p); simpl; [reflexivity|].
  unfold consume. rewrite H. reflexivity.
Qed.

Ltac expose t :=
  let ty := fresh "ty" in
  destruct t as [ty ? ? ? ?]; cbn [tok_type] in *; subst ty.

Ltac terminator term :=
  destruct term as [|[[] ? ? ? ?] [|[[] ? ? ? ?] [|? ?]]]; try discriminate.

Ltac operand_step :=
  first
    [ erewrite parse_variable_operand_register by eassumption
    | erewrite parse_var_or_imm_operand by eassumption
    | rewrite advance_step by (cbn; discriminate) ];
  cbn [lexer_next_token fst snd negb app].

(** The command of a well-formed instruction, as [parse_cmd] returns it. *)
Lemma parse_cmd_instruction (i : Instruction) (cmd : Command)
      (term : list Token) (map : LabelMap) :
  built_command i = Some cmd ->
  line_terminator term = true ->
  exists p',
    parse_cmd (parser_init (instruction_tokens i ++ term) map) = (Some cmd, p') /\
    stdout p' = [] /\ is_at_end p' = true /\ had_error p' = false.
Proof.
  intros He Ht.
  destruct i as [kw d a b|kw d a|kw a b|kw sig v]; cbn in He.
  - destruct (tok_type kw) eqn:K; try discriminate;
      destruct (source_register d) eqn:D; try discriminate;
      destruct (source_operand a) eqn:A; try discriminate;
      destruct (source_operand b) eqn:B; try discriminate;
      injection He as <-; expose kw; terminator term;
      unfold parse_cmd; rewrite skip_nls_here by (cbn; discriminate);
      cbn; unfold parse_arith; repeat operand_step;
      unfold finish_command; cbn; eexists; repeat split.
  - destruct (tok_type kw) eqn:K; try discriminate;
      destruct (source_register d) eqn:D; try discriminate;
      destruct (source_operand a) eqn:A; try discriminate;
      injection He as <-; expose kw; terminator term;
      unfold parse_cmd; rewrite skip_nls_here by (cbn; discriminate);
      cbn; unfold parse_mov; repeat operand_step;
      unfold finish_command; cbn; eexists; repeat split.
  - destruct (tok_type kw) eqn:K; try discriminate;
      destruct (source_operand a) eqn:A; try discriminate;
      destruct (source_operand b) eqn:B; try discriminate;
      injection He as <-; expose kw; terminator term;
      unfold parse_cmd; rewrite skip_nls_here by (cbn; discriminate);
      cbn; unfold parse_compare; repeat operand_step;
      unfold finish_command; cbn; eexists; repeat split.
  - destruct (tok_type kw) eqn:K; try discriminate;
      destruct (tok_type sig) eqn:G; try discriminate;
      destruct (is_base sig) eqn:S; try discriminate;
      destruct (source_operand v) eqn:V; try discriminate;
      injection He as <-; expose kw; terminator term;
      unfold parse_cmd; rewrite skip_nls_here by (cbn; discriminate);
      cbn; unfold parse_print; operand_step;
      cbn [current]; rewrite S; cbn [negb];
      (rewrite advance_step by (rewrite G; discriminate));
      cbn [lexer_next_token fst snd negb app];
      repeat operand_step;
      unfold finish_command; cbn; eexists; repeat split.
Qed.

(** The list of a well-formed instruction, as [parse_commands] returns
    it. *)
Lemma single_instruction (i : Instruction) (cmd : Command)
      (term : list Token) (map : LabelMap) :
  built_command i = Some cmd ->
  line_terminator term = true ->
  exists p',
    parse_commands (parser_init (instruction_tokens i ++ term) map)
      = Some ([cmd], p') /\
    stdout p' = [] /\ is_at_end p' = true.
Proof.
  intros He Ht.
  destruct (parse_cmd_instruction i cmd term map He Ht) as (p' & E & Ho & Ha & Hh).
  exists p'. split; [|auto].
  unfold parse_commands. rewrite parse_commands_loop_unfold.
  assert (N : is_at_end (parser_init (instruction_tokens i ++ term) map) = false).
  { destruct i as [kw ? ? ?|kw ? ?|kw ? ?|kw ? ?]; cbn in He;
      destruct (tok_type kw) eqn:K; try discriminate;
      unfold is_at_end; cbn; rewrite K; reflexivity. }
  rewrite N, E. cbn [negb fst snd].
  assert (R : recover p' = p') by (unfold recover; rewrite Hh; reflexivity).
  rewrite R, parse_commands_loop_unfold, Ha. reflexivity.
Qed.

(** ** The command built and the command documented *)

(** The productions build the documented command, except that operand A
    of a PRINT is the copy [strdup] makes. *)
Lemma built_command_expected (i : Instruction) :
  built_command i =
  option_map
    (fun c => match i with
              | I_print _ sig _ => set_val_a c (str_val (strdup (tok_lexeme sig)))
              | _ => c
              end)
    (expected_command i).
Proof.
  unfold built_command, expected_command.
  destruct i as [kw d a b|kw d a|kw a b|kw sig v]; cbn.
  - destruct (tok_type kw), (source_register d), (source_operand a),
      (source_operand b); reflexivity.
  - destruct (tok_type kw), (source_register d), (source_operand a);
      reflexivity.
  - destruct (tok_type kw), (source_operand a), (source_operand b);
      reflexivity.
  - destruct (tok_type kw), (tok_type sig), (is_base sig), (source_operand v);
      reflexivity.
Qed.

(** What [parse_commands] returns for a well-formed instruction, against
    the documented command: the documented command itself for every kind
    but PRINT, and for a PRINT the documented command with the copy of
    the lexeme in operand A. *)
Lemma single_instruction_documented (i : Instruction) (cmd : Command)
      (term : list Token) (map : LabelMap) :
  expected_command i = Some cmd ->
  line_terminator term = true ->
  exists p',
    parse_commands (parser_init (instruction_tokens i ++ term) map)
      = Some ([match i with
               | I_print _ sig _ =>
                   set_val_a cmd (str_val (strdup (tok_lexeme sig)))
               | _ => cmd
               end], p') /\
    stdout p' = [] /\ is_at_end p' = true.
Proof.
  intros He Ht. apply single_instruction; [|exact Ht].
  rewrite built_command_expected, He. reflexivity.
Qed.

(** ** Immediates against the grammar of literals *)

Lemma skipn_char_at (s : cstring) (i : nat) :
  i < List.length s -> skipn i s = char_at s i :: skipn (S i) s.
Proof.
  revert i. induction s as [|c s IH]; intros i H; simpl in H; [lia|].
  destruct i as [|i]; [reflexivity|].
  simpl. unfold char_at in *. simpl. apply IH. lia.
Qed.

Lemma wrap64_step (v a b : Z) :
  wrap64 (wrap64 v * a + b) = wrap64 (v * a + b).
Proof.
  unfold wrap64.
  rewrite <- (Zplus_mod_idemp_l (v mod 2 ^ 64 * a)).
  rewrite Z.mul_mod_idemp_l by lia.
  rewrite Zplus_mod_idemp_l. reflexivity.
Qed.

Lemma denotes_step (b v d : Z) (n : nat) (r : Z) :
  wrap64 ((wrap64 v * b + d) * b ^ Z.of_nat n + r)
  = wrap64 (v * b ^ Z.of_nat (S n) + (d * b ^ Z.of_nat n + r)).
Proof.
  replace ((wrap64 v * b + d) * b ^ Z.of_nat n + r)%Z
    with (wrap64 v * (b * b ^ Z.of_nat n) + (d * b ^ Z.of_nat n + r))%Z by ring.
  rewrite wrap64_step. f_equal.
  rewrite Nat2Z.inj_succ, Z.pow_succ_r by lia. ring.
Qed.

Lemma firstn_length_exact (n : nat) (s : cstring) :
  n <= List.length s -> List.length (firstn n s) = n.
Proof. intros H. rewrite length_firstn. lia. Qed.

Lemma imm_hex_loop_spec (s : cstring) (n i : nat) (v : Z) :
  i + n <= List.length s ->
  imm_hex_loop s i n (wrap64 v) =
  if forallb is_hex (firstn n (skipn i s))
  then Some (wrap64 (v * 16 ^ Z.of_nat n + denotes 16 (firstn n (skipn i s))))
  else None.
Proof.
  revert i v. induction n as [|n IH]; intros i v H.
  - simpl. f_equal. f_equal. lia.
  - rewrite (skipn_char_at s i) by lia.
    cbn [firstn forallb denotes imm_hex_loop].
    rewrite firstn_length_exact by (rewrite length_skipn; lia).
    unfold is_hex at 1, digit_value.
    destruct (in_range "0" "9" (char_at s i)); cbn [orb andb].
    { rewrite IH by lia. destruct (forallb is_hex (firstn n (skipn (S i) s)));
        [|reflexivity]. f_equal. apply denotes_step. }
    destruct (in_range "a" "f" (char_at s i)); cbn [orb andb].
    { rewrite IH by lia. destruct (forallb is_hex (firstn n (skipn (S i) s)));
        [|reflexivity]. f_equal. apply denotes_step. }
    destruct (in_range "A" "F" (char_at s i)); cbn [orb andb]; [|reflexivity].
    rewrite IH by lia. destruct (forallb is_hex (firstn n (skipn (S i) s)));
      [|reflexivity]. f_equal. apply denotes_step.
Qed.

Lemma binary_digit_value (c : ascii) :
  is_binary c = true -> digit_value c = (code c - code "0")%Z.
Proof.
  unfold is_binary. intros H. apply orb_true_iff in H as [H|H];
    apply Ascii.eqb_eq in H; subst c; reflexivity.
Qed.

Lemma imm_bin_loop_spec (s : cstring) (n i : nat) (v : Z) :
  i + n <= List.length s ->
  imm_bin_loop s i n (wrap64 v) =
  if forallb is_binary (firstn n (skipn i s))
  then Some (wrap64 (v * 2 ^ Z.of_nat n + denotes 2 (firstn n (skipn i s))))
  else None.
Proof.
  revert i v. induction n as [|n IH]; intros i v H.
  - simpl. f_equal. f_equal. lia.
  - rewrite (skipn_char_at s i) by lia.
    cbn [firstn forallb denotes imm_bin_loop].
    rewrite firstn_length_exact by (rewrite length_skipn; lia).
    fold (is_binary (char_at s i)).
    destruct (is_binary (char_at s i)) eqn:B; cbn [andb]; [|reflexivity].
    rewrite IH by lia. destruct (forallb is_binary (firstn n (skipn (S i) s)));
      [|reflexivity].
    f_equal. rewrite (binary_digit_value _ B). apply denotes_step.
Qed.

Lemma imm_dec_loop_spec (s : cstring) (n i : nat) (v : Z) :
  i + n <= List.length s ->
  imm_dec_loop s i n (wrap64 v) =
  if forallb is_decimal (firstn n (skipn i s))
  then Some (wrap64 (v * 10 ^ Z.of_nat n + denotes 10 (firstn n (skipn i s))))
  else None.
Proof.
  revert i v. induction n as [|n IH]; intros i v H.
  - simpl. f_equal. f_equal. lia.
  - rewrite (skipn_char_at s i) by lia.
    cbn [firstn forallb denotes imm_dec_loop].
    rewrite firstn_length_exact by (rewrite length_skipn; lia).
    unfold is_decimal at 1, digit_value.
    destruct (in_range "0" "9" (char_at s i)); cbn [andb]; [|reflexivity].
    rewrite IH by lia. destruct (forallb is_decimal (firstn n (skipn (S i) s)));
      [|reflexivity]. f_equal. apply denotes_step.
Qed.

(** The value [parse_imm] computes for a token is the number its text
    denotes, reduced to 64 bits. *)
Lemma imm_value_literal (t : Token) :
  token_wf t ->
  imm_value t = option_map wrap64 (literal_value (token_text t)).
Proof.
  unfold token_wf, imm_value, token_text.
  destruct t as [ty s len ln col]. cbn [tok_lexeme tok_length]. intros W.
  change 0%Z with (wrap64 0).
  destruct len as [|[|len]].
  - reflexivity.
  - destruct s as [|c s]; [simpl in W; lia|].
    cbn [Nat.leb andb]. rewrite imm_dec_loop_spec by (simpl; lia).
    cbn [skipn firstn literal_value].
    destruct (forallb is_decimal [c]); reflexivity.
  - destruct s as [|z [|p s]]; try (simpl in W; lia).
    cbn [Nat.leb andb char_at nth firstn literal_value]. simpl in W.
    replace (S (S len) - 2) with len by lia.
    destruct (Ascii.eqb z "0").
    + destruct (Ascii.eqb p "x" || Ascii.eqb p "X").
      * rewrite imm_hex_loop_spec by (simpl; lia). cbn [skipn].
        destruct (forallb is_hex (firstn len s)); reflexivity.
      * destruct (Ascii.eqb p "b" || Ascii.eqb p "B"); [|reflexivity].
        rewrite imm_bin_loop_spec by (simpl; lia). cbn [skipn].
        destruct (forallb is_binary (firstn len s)); reflexivity.
    + rewrite imm_dec_loop_spec by (simpl; lia). cbn [skipn firstn].
      destruct (forallb is_decimal (z :: p :: firstn len s)); reflexivity.
Qed.

(** ** [strtol] against the grammar of integers *)

Lemma take_drop_while (f : ascii -> bool) (s : cstring) :
  s = take_while f s ++ drop_while f s.
Proof.
  induction s as [|c s IH]; simpl; [reflexivity|].
  destruct (f c); simpl; [f_equal; exact IH|reflexivity].
Qed.

Lemma take_while_all (f : ascii -> bool) (s : cstring) :
  forallb f (take_while f s) = true.
Proof.
  induction s as [|c s IH]; simpl; [reflexivity|].
  destruct (f c) eqn:E; simpl; [rewrite E; exact IH|reflexivity].
Qed.

Lemma drop_while_head (f : ascii -> bool) (s : cstring) :
  f (hd NUL (drop_while f s)) = true -> drop_while f s = [].
Proof.
  induction s as [|c s IH]; simpl; [reflexivity|].
  destruct (f c) eqn:E; [exact IH|]. simpl. congruence.
Qed.

Lemma take_while_app (f : ascii -> bool) (a b : cstring) :
  forallb f a = true -> f (hd NUL b) = false ->
  take_while f (a ++ b) = a /\ drop_while f (a ++ b) = b.
Proof.
  intros Ha Hb. induction a as [|c a IH]; simpl in *.
  - destruct b as [|c b]; simpl in *; [auto|]. rewrite Hb. auto.
  - apply andb_true_iff in Ha as [Hc Ha]. rewrite Hc.
    destruct (IH Ha) as [-> ->]. auto.
Qed.

Lemma decimal_code (c : ascii) :
  is_decimal c = true <-> (48 <= code c <= 57)%Z.
Proof.
  unfold is_decimal, in_range. rewrite andb_true_iff, !Z.leb_le.
  change (code "0") with 48%Z. change (code "9") with 57%Z. tauto.
Qed.

Lemma decimal_not_space (c : ascii) : is_decimal c = true -> isspace c = false.
Proof.
  intros H. apply decimal_code in H. unfold isspace, in_range.
  apply orb_false_iff. split.
  - destruct (Ascii.eqb_spec c " ");
      [subst c; change (code " ") with 32%Z in H; lia|reflexivity].
  - apply andb_false_iff. right. apply Z.leb_gt.
    change (code (ascii_of_nat 13)) with 13%Z. lia.
Qed.

Lemma decimal_not_sign (c : ascii) :
  is_decimal c = true -> Ascii.eqb c "-" = false /\ Ascii.eqb c "+" = false.
Proof.
  intros H. apply decimal_code in H. split.
  - destruct (Ascii.eqb_spec c "-");
      [subst c; change (code "-") with 45%Z in H; lia|reflexivity].
  - destruct (Ascii.eqb_spec c "+");
      [subst c; change (code "+") with 43%Z in H; lia|reflexivity].
Qed.

Lemma decimal_digit_value (c : ascii) :
  is_decimal c = true -> digit_value c = (code c - code "0")%Z.
Proof. unfold is_decimal, digit_value. intros ->. reflexivity. Qed.

(** Reading digits from the left gives the number they denote. *)
Lemma fold_denotes (b : Z) (ds : cstring) (acc : Z) :
  forallb is_decimal ds = true ->
  fold_left (fun a c => (a * b + (code c - code "0"))%Z) ds acc
  = (acc * b ^ Z.of_nat (List.length ds) + denotes b ds)%Z.
Proof.
  revert acc. induction ds as [|c ds IH]; intros acc H; simpl in H.
  - simpl. ring.
  - apply andb_true_iff in H as [Hc H].
    cbn [fold_left denotes List.length]. rewrite IH by exact H.
    rewrite (decimal_digit_value c Hc), Nat2Z.inj_succ, Z.pow_succ_r by lia.
    ring.
Qed.

Lemma accumulate_denotes (ds : cstring) :
  forallb is_decimal ds = true -> accumulate 10 ds = denotes 10 ds.
Proof. intros H. unfold accumulate. rewrite fold_denotes by exact H. ring. Qed.

Lemma clamp_long_range (v : Z) :
  (0 <= clamp_long v <= 31)%Z <-> (0 <= v <= 31)%Z.
Proof.
  unfold clamp_long, LONG_MAX, LONG_MIN.
  change (2 ^ 63)%Z with 9223372036854775808%Z. lia.
Qed.

Lemma clamp_long_small (v : Z) : (0 <= v <= 31)%Z -> clamp_long v = v.
Proof.
  unfold clamp_long, LONG_MAX, LONG_MIN.
  change (2 ^ 63)%Z with 9223372036854775808%Z. lia.
Qed.

(** Every text of the grammar is converted in full. *)
Lemma strtol_complete (ws sg ds tail : cstring) :
  forallb isspace ws = true -> is_sign sg -> ds <> [] ->
  forallb is_decimal ds = true -> is_decimal (hd NUL tail) = false ->
  strtol (ws ++ sg ++ ds ++ tail)
  = (clamp_long (signed sg (denotes 10 ds)),
     List.length ws + List.length sg + List.length ds).
Proof.
  intros Hws Hsg Hne Hds Htail. unfold strtol.
  destruct ds as [|d ds]; [congruence|].
  pose proof Hds as Hd. simpl in Hd. apply andb_true_iff in Hd as [Hd _].
  destruct (decimal_not_sign d Hd) as [Dm Dp].
  assert (Hhead : isspace (hd NUL (sg ++ (d :: ds) ++ tail)) = false).
  { destruct Hsg as [->|[->| ->]]; simpl; try reflexivity.
    apply decimal_not_space, Hd. }
  destruct (take_while_app isspace ws (sg ++ (d :: ds) ++ tail) Hws Hhead)
    as [-> ->].
  destruct (take_while_app is_decimal (d :: ds) tail Hds Htail) as [Td _].
  destruct Hsg as [->|[->| ->]]; cbn [app List.length signed].
  - change (d :: ds ++ tail) with ((d :: ds) ++ tail).
    rewrite Dm, Dp, Td. rewrite accumulate_denotes by exact Hds.
    f_equal.
  - change (Ascii.eqb "+" "-") with false. change (Ascii.eqb "+" "+") with true.
    cbv iota. change (d :: ds ++ tail) with ((d :: ds) ++ tail).
    rewrite Td. rewrite accumulate_denotes by exact Hds.
    f_equal.
  - change (Ascii.eqb "-" "-") with true.
    cbv iota. change (d :: ds ++ tail) with ((d :: ds) ++ tail).
    rewrite Td. rewrite accumulate_denotes by exact Hds.
    f_equal.
Qed.

(** Whatever is converted is a text of the grammar. *)
Lemma strtol_sound (s : cstring) (v : Z) (e : nat) :
  strtol s = (v, e) -> e <> 0 ->
  exists ws sg ds tail,
    s = ws ++ sg ++ ds ++ tail /\ forallb isspace ws = true /\ is_sign sg /\
    ds <> [] /\ forallb is_decimal ds = true /\
    e = List.length ws + List.length sg + List.length ds /\
    v = clamp_long (signed sg (denotes 10 ds)).
Proof.
  unfold strtol. intros H He.
  pose proof (take_drop_while isspace s) as Hs.
  pose proof (take_while_all isspace s) as Hws.
  set (ws := take_while isspace s) in *.
  set (s1 := drop_while isspace s) in *.
  assert (Hsign : exists sg s2,
             s1 = sg ++ s2 /\ is_sign sg /\
             (let '(neg, sl, s2') :=
                match s1 with
                | c :: r => if Ascii.eqb c "-" then (true, 1, r)
                            else if Ascii.eqb c "+" then (false, 1, r)
                            else (false, 0, s1)
                | [] => (false, 0, s1)
                end in
              s2' = s2 /\ sl = List.length sg /\
              forall x, (if neg then - x else x)%Z = signed sg x)).
  { unfold is_sign. destruct s1 as [|c r].
    - exists [], []. simpl. auto.
    - destruct (Ascii.eqb_spec c "-") as [->|Nm].
      + exists ["-"%char], r. simpl. auto 6.
      + destruct (Ascii.eqb_spec c "+") as [->|Np].
        * exists ["+"%char], r. simpl. auto 6.
        * exists [], (c :: r). simpl. auto 6. }
  destruct Hsign as (sg & s2 & Hs1 & Hsg & Hm).
  destruct (match s1 with
            | c :: r => if Ascii.eqb c "-" then (true, 1, r)
                        else if Ascii.eqb c "+" then (false, 1, r)
                        else (false, 0, s1)
            | [] => (false, 0, s1)
            end) as [[neg sl] s2'].
  destruct Hm as (-> & -> & Hneg).
  pose proof (take_drop_while is_decimal s2) as Hs2.
  pose proof (take_while_all is_decimal s2) as Hds.
  destruct (take_while is_decimal s2) as [|d ds] eqn:Eds.
  - injection H as <- <-. congruence.
  - injection H as <- <-.
    exists ws, sg, (d :: ds), (drop_while is_decimal s2).
    repeat split; try assumption; try discriminate.
    + rewrite Hs, Hs1. f_equal. f_equal. exact Hs2.
    + rewrite Hneg, accumulate_denotes by exact Hds. reflexivity.
Qed.

(** ** Register tokens against the grammar *)

Lemma firstn_app_length (a b : cstring) : firstn (List.length a) (a ++ b) = a.
Proof. induction a as [|c a IH]; simpl; [reflexivity|]. f_equal. exact IH. Qed.

Lemma hd_skipn_char_at (s : cstring) (n : nat) : hd NUL (skipn n s) = char_at s n.
Proof.
  revert n. induction s as [|c s IH]; intros [|n]; try reflexivity.
  simpl. rewrite IH. reflexivity.
Qed.

Lemma integer_form_length (r : cstring) (n : Z) :
  integer_form r n -> 1 <= List.length r.
Proof.
  intros (ws & sg & ds & -> & _ & _ & Hne & _).
  rewrite !length_app. destruct ds; [congruence|simpl; lia].
Qed.

(** On a token whose text is in the grammar only the range of the value
    decides. *)
Lemma parse_variable_form (t : Token) (r : cstring) (n : Z) :
  token_delimited t -> token_text t = "x"%char :: r ->
  integer_form r n ->
  parse_variable t = (if (0 <=? n)%Z && (n <=? 31)%Z then Some n else None) /\
  is_variable t = true.
Proof.
  intros [W D] Ht Hf.
  pose proof (integer_form_length r n Hf) as Hr.
  destruct Hf as (ws & sg & ds & -> & Hws & Hsg & Hne & Hds & ->).
  unfold token_wf, token_text in *.
  pose proof (firstn_skipn (tok_length t) (tok_lexeme t)) as Hl.
  rewrite Ht in Hl.
  assert (Hlen : tok_length t = 1 + List.length (ws ++ sg ++ ds)).
  { rewrite <- (firstn_length_exact (tok_length t) (tok_lexeme t) W), Ht.
    reflexivity. }
  split.
  - unfold parse_variable. rewrite <- Hl. cbn [app tl].
    rewrite <- !app_assoc.
    rewrite strtol_complete; try assumption;
      [|rewrite hd_skipn_char_at; exact D].
    replace (tok_length t =? _) with true
      by (symmetry; apply Nat.eqb_eq; rewrite Hlen, !length_app; lia).
    cbn [negb orb].
    pose proof (clamp_long_range (signed sg (denotes 10 ds))) as Hc.
    destruct (Z.leb_spec 0 (signed sg (denotes 10 ds)));
      destruct (Z.leb_spec (signed sg (denotes 10 ds)) 31); cbn [andb].
    + rewrite clamp_long_small by lia.
      destruct (Z.ltb_spec (signed sg (denotes 10 ds)) 0); [lia|].
      destruct (Z.ltb_spec 31 (signed sg (denotes 10 ds))); [lia|].
      reflexivity.
    + destruct (Z.ltb_spec (clamp_long (signed sg (denotes 10 ds))) 0);
        [reflexivity|].
      destruct (Z.ltb_spec 31 (clamp_long (signed sg (denotes 10 ds))));
        [reflexivity|lia].
    + destruct (Z.ltb_spec (clamp_long (signed sg (denotes 10 ds))) 0);
        [reflexivity|].
      destruct (Z.ltb_spec 31 (clamp_long (signed sg (denotes 10 ds))));
        [reflexivity|lia].
    + lia.
  - unfold is_variable. rewrite <- Hl. cbn [app char_at nth].
    apply andb_true_iff. split; [apply Nat.leb_le; lia|reflexivity].
Qed.

(** A token whose text is in the grammar, with a value in range, is
    accepted. *)
Lemma parse_variable_complete (t : Token) (r : cstring) (n : Z) :
  token_delimited t -> token_text t = "x"%char :: r ->
  integer_form r n -> (0 <= n <= 31)%Z ->
  parse_variable t = Some n /\ is_variable t = true.
Proof.
  intros D Ht Hf Hn.
  destruct (parse_variable_form t r n D Ht Hf) as [P V].
  split; [|exact V]. rewrite P.
  destruct (Z.leb_spec 0 n); [|lia]. destruct (Z.leb_spec n 31); [|lia].
  reflexivity.
Qed.

(** An accepted token has its text in the grammar, with the value
    returned. *)
Lemma parse_variable_sound (t : Token) (n : Z) :
  is_variable t = true -> parse_variable t = Some n ->
  register_text (token_text t) n.
Proof.
  unfold is_variable, parse_variable, token_text. intros V P.
  apply andb_true_iff in V as [Hl Hx]. apply Nat.leb_le in Hl.
  destruct (tok_lexeme t) as [|c rest].
  { vm_compute in Hx. discriminate. }
  cbn [char_at nth] in Hx. apply Ascii.eqb_eq in Hx. subst c.
  cbn [tl] in P. destruct (strtol rest) as [v e] eqn:E.
  destruct (Nat.eqb_spec (tok_length t) (1 + e)) as [Hlen|]; [|discriminate].
  cbn [negb orb] in P.
  destruct (Z.ltb_spec v 0); [discriminate|].
  destruct (Z.ltb_spec 31 v); [discriminate|].
  injection P as <-.
  destruct (strtol_sound rest v e E ltac:(lia))
    as (ws & sg & ds & tail & -> & Hws & Hsg & Hne & Hds & -> & Hv).
  assert (Hr : (0 <= signed sg (denotes 10 ds) <= 31)%Z).
  { apply clamp_long_range. lia. }
  rewrite Hlen. cbn [Nat.add firstn].
  exists (ws ++ sg ++ ds). split; [|split].
  - f_equal.
    replace (List.length ws + List.length sg + List.length ds)
      with (List.length (ws ++ sg ++ ds)) by (rewrite !length_app; lia).
    replace (ws ++ sg ++ ds ++ tail) with ((ws ++ sg ++ ds) ++ tail)
      by (rewrite <- !app_assoc; reflexivity).
    apply firstn_app_length.
  - exists ws, sg, ds. rewrite Hv, clamp_long_small by exact Hr. auto 7.
  - rewrite Hv, clamp_long_small by exact Hr. exact Hr.
Qed.

Lemma plain_register_text_register (text : cstring) (n : Z) :
  plain_register_text text n -> register_text text n.
Proof.
  intros (ds & -> & Hne & Hds & -> & Hn).
  exists ds. split; [reflexivity|]. split; [|exact Hn].
  exists [], [], ds. unfold is_sign. simpl. auto 7.
Qed.

(** The register operand parser accepts exactly the texts of the
    grammar. *)
Lemma parse_variable_operand_iff (p : Parser) (op : Operand) (n : Z) :
  tok_type (current p) = TOK_IDENT -> token_delimited (current p) ->
  parse_variable_operand p op = (true, base n, snd (advance p))
  <-> register_text (token_text (current p)) n.
Proof.
  intros T D. split.
  - intros H.
    destruct (parse_variable_operand_cases p op) as [(r & _ & V & P & E)|E];
      rewrite E in H; [|discriminate].
    injection H as <-. apply parse_variable_sound; assumption.
  - intros (r & Ht & Hf & Hn).
    destruct (parse_variable_complete (current p) r n D Ht Hf Hn) as [P V].
    unfold parse_variable_operand. rewrite T, V, P. reflexivity.
Qed.

(** * The claims *)

(** ** Error containment *)

(** The scenario of C1: the line [bogus] yields no command and one report,
    at [bogus] on line 2, and the lines around it are parsed. *)
Lemma bogus_line_is_contained :
  run source_bogus =
  Some ([mkCommand CMD_ADD (base 1) (base 2) (num_val 3)
                   false false true false BRANCH_NONE;
         mkCommand CMD_MOV (base 3) (base 1) (num_val 0)
                   false false false false BRANCH_NONE],
        [mkDiagnostic (str "bogus") TOK_IDENT 5 2 1]).
Proof. vm_compute. reflexivity. Qed.

(** C1: the code at the input [add x1 x2 / mov x3 x1].  The first line
    lacks an operand; the operand parser consumes the line break, the
    report names [mov] on line 2, and the recovery then skips the second
    line, so the well-formed MOV is lost: no command is returned. *)
Theorem missing_operand_loses_next_line :
  run source_missing_operand =
  Some ([], [mkDiagnostic (str "mov") TOK_MOV 3 2 1]).
Proof. vm_compute. reflexivity. Qed.

(** ** The PRINT command *)

(** C2: the code at the input [print x 0xFF].  One PRINT command is
    returned and operand B is the immediate 255, but the string of
    operand A is the copy of the source from [x] to its end, not the one
    character [x]. *)
Theorem print_copies_rest_of_source :
  run source_print =
  Some ([mkCommand CMD_PRINT (num_val 0) (str_val (str "x 0xFF" ++ nl))
                   (num_val 255) false false true false BRANCH_NONE],
        []).
Proof. vm_compute. reflexivity. Qed.

(** ** A token that is no operand *)

(** C3, as stated, fails: in [cmp add x2] the keyword [add] stands where
    an operand is required; the operand parser fails and moves to [x2],
    and the report of the failed instruction names [x2]. *)
Lemma operand_parser_consumes_keyword :
  let p := mkParser [] (word TOK_ADD "add") (word TOK_IDENT "x2") false 0 [] in
  tok_type (current p) <> TOK_IDENT /\ tok_type (current p) <> TOK_NUM /\
  fst (fst (fst (parse_var_or_imm p (num_val 0) false))) = false /\
  current (snd (parse_var_or_imm p (num_val 0) false)) = word TOK_IDENT "x2" /\
  current (snd (parse_var_or_imm p (num_val 0) false)) <> current p /\
  run source_keyword_operand =
  Some ([], [mkDiagnostic (str "x2") TOK_IDENT 2 1 9]).
Proof.
  cbv zeta. repeat split; discriminate.
Qed.

(** C3, amended: on a token that is neither an identifier nor a number
    (nor a line break) the operand parser reports failure and writes
    nothing; at the sentinel the parser stays where it is; on any other
    such token the parser advances, so the token behind the offending one
    is current when the report is printed. *)
Theorem parse_var_or_imm_skips_other_token
        (p : Parser) (op : Operand) (i : bool) (m : string) (c : option Command) :
  tok_type (current p) <> TOK_IDENT ->
  tok_type (current p) <> TOK_NUM ->
  tok_type (current p) <> TOK_NL ->
  parse_var_or_imm p op i = (false, op, i, snd (advance p)) /\
  (tok_type (current p) = TOK_EOF -> snd (advance p) = p) /\
  (tok_type (current p) <> TOK_EOF ->
   current (snd (advance p)) = next p /\
   stdout (print_error (snd (advance p)) m c) = stdout p ++ [report (next p)]).
Proof.
  intros Hi Hn _. split; [|split].
  - destruct (parse_var_or_imm_cases p op i)
      as [(r & T & _)|[(v & T & _)|[([T|T] & _)|(_ & _ & E)]]];
      try contradiction. exact E.
  - intros E. rewrite advance_at_end; [reflexivity|].
    unfold is_at_end. rewrite E. reflexivity.
  - intros E. apply TokenType_eqb_neq in E.
    destruct (advance_moves p E) as (Hc & _).
    destruct (advance_keeps p) as (_ & Ho & _).
    unfold print_error. cbn [stdout]. rewrite Hc, Ho. auto.
Qed.

Lemma parse_var_or_imm_skips_other_token_witness :
  let p := mkParser [] (word TOK_ADD "add") (word TOK_IDENT "x2") false 0 [] in
  parse_var_or_imm p (num_val 0) false
  = (false, num_val 0, false, snd (advance p)) /\
  (tok_type (current p) = TOK_EOF -> snd (advance p) = p) /\
  (tok_type (current p) <> TOK_EOF ->
   current (snd (advance p)) = next p /\
   stdout (print_error (snd (advance p)) "" None)
   = stdout p ++ [report (next p)]).
Proof.
  cbv zeta.
  apply (parse_var_or_imm_skips_other_token
           (mkParser [] (word TOK_ADD "add") (word TOK_IDENT "x2") false 0 [])
           (num_val 0) false "" None); simpl; discriminate.
Defined.

(** ** Immediates *)

(** C4, as stated, fails: [09] consists of decimal digits only and
    denotes 9, and [parse_imm] rejects it. *)
Lemma leading_zero_decimal_rejected :
  let p := at_token (word TOK_NUM "09") in
  forallb is_decimal (token_text (current p)) = true /\
  denotes 10 (token_text (current p)) = 9%Z /\
  parse_imm p (num_val 0) = (false, num_val 0, p).
Proof. cbv zeta. repeat split. Qed.

(** C4, amended: for a numeric token, [parse_imm] succeeds exactly when
    the whole text is a literal of [literal_value] ([0x] or [0X] with
    hexadecimal digits, [0b] or [0B] with binary digits, or decimal digits
    without a leading zero unless the text is [0]); it then stores the
    number the digits denote in that base, reduced modulo 2^64, and
    advances; otherwise it changes nothing.  [0x1F] is 31, [0b101] is 5,
    [42] is 42; [0x1G], [10x] and [09] are rejected. *)
Theorem parse_imm_literal :
  (forall (p : Parser) (op : Operand),
      tok_type (current p) = TOK_NUM -> token_wf (current p) ->
      parse_imm p op =
      match literal_value (token_text (current p)) with
      | Some v => (true, num_val (v mod 2 ^ 64), snd (advance p))
      | None => (false, op, p)
      end) /\
  literal_value (str "0x1F") = Some 31%Z /\
  literal_value (str "0b101") = Some 5%Z /\
  literal_value (str "42") = Some 42%Z /\
  literal_value (str "0x1G") = None /\
  literal_value (str "10x") = None /\
  literal_value (str "09") = None.
Proof.
  split; [|repeat split].
  intros p op T W. unfold parse_imm. rewrite T. cbn [TokenType_eqb negb].
  rewrite (imm_value_literal (current p) W).
  destruct (literal_value (token_text (current p))); reflexivity.
Qed.

Lemma parse_imm_literal_witness :
  parse_imm (at_token (word TOK_NUM "0x1F")) (num_val 0)
  = (true, num_val 31, snd (advance (at_token (word TOK_NUM "0x1F")))).
Proof.
  apply (proj1 parse_imm_literal (at_token (word TOK_NUM "0x1F")) (num_val 0)).
  - reflexivity.
  - unfold token_wf. simpl. lia.
Defined.

(** C9: a numeric token whose text is exactly [0x] or [0b] is accepted
    and the immediate 0 is stored. *)
Theorem bare_prefix_is_zero (p : Parser) (op : Operand) :
  tok_type (current p) = TOK_NUM -> token_wf (current p) ->
  token_text (current p) = str "0x" \/ token_text (current p) = str "0b" ->
  parse_imm p op = (true, num_val 0, snd (advance p)).
Proof.
  intros T W H. unfold parse_imm. rewrite T. cbn [TokenType_eqb negb].
  assert (L : tok_length (current p) = 2).
  { rewrite <- (firstn_length_exact _ _ W).
    fold (token_text (current p)). destruct H as [-> | ->]; reflexivity. }
  unfold imm_value, token_text in *. rewrite L in *.
  destruct (tok_lexeme (current p)) as [|z [|c rest]];
    try (destruct H; discriminate).
  cbn [firstn] in H. cbn [char_at nth Nat.leb Nat.sub andb].
  destruct H as [H|H]; injection H as -> ->; reflexivity.
Qed.

Lemma bare_prefix_is_zero_witness :
  parse_imm (at_token (word TOK_NUM "0x")) (num_val 7)
  = (true, num_val 0, snd (advance (at_token (word TOK_NUM "0x")))).
Proof.
  apply (bare_prefix_is_zero (at_token (word TOK_NUM "0x")) (num_val 7)).
  - reflexivity.
  - unfold token_wf. simpl. lia.
  - left. reflexivity.
Defined.

(** ** Well-formed instructions *)

(** C5: a well-formed single instruction of each kind, ended by a line
    break or by the end of input, yields exactly one command, no report,
    and the parser at the end of input.  For ADD, SUB, MOV, CMP and
    CMP_U the command is the documented one: the matching kind, every
    operand slot filled, each is_immediate flag set exactly when the
    operand is a numeric literal.  For PRINT every slot but operand A is
    the documented one, and operand A holds what [strdup] copies from the
    signifier's lexeme, not the signifier.  At [print x 0xFF], whose
    tokens are the lexer's, the documented operand A is [x] and the
    command returned holds the source from [x] to its end. *)
Theorem single_instruction_except_print_operand_a :
  (forall (i : Instruction) (cmd : Command) (term : list Token)
          (map : LabelMap),
      expected_command i = Some cmd ->
      line_terminator term = true ->
      exists p',
        parse_commands (parser_init (instruction_tokens i ++ term) map)
        = Some ([match i with
                 | I_print _ sig _ =>
                     set_val_a cmd (str_val (strdup (tok_lexeme sig)))
                 | _ => cmd
                 end], p') /\
        stdout p' = [] /\ is_at_end p' = true) /\
  tokenize source_print
  = instruction_tokens print_x_0xFF
    ++ [mkToken TOK_NL nl 1 1 13; mkToken TOK_EOF [] 0 2 1] /\
  expected_command print_x_0xFF
  = Some (mkCommand CMD_PRINT (num_val 0) (str_val (str "x")) (num_val 255)
                    false false true false BRANCH_NONE) /\
  option_map fst (parse_source source_print)
  = Some [mkCommand CMD_PRINT (num_val 0) (str_val (str "x 0xFF" ++ nl))
                    (num_val 255) false false true false BRANCH_NONE].
Proof.
  split; [exact single_instruction_documented|].
  split; [vm_compute; reflexivity|].
  split; vm_compute; reflexivity.
Qed.

Lemma single_instruction_except_print_operand_a_witness :
  exists p',
    parse_commands
      (parser_init
         (instruction_tokens
            (I_arith (word TOK_ADD "add") (word TOK_IDENT "x1")
                   (word TOK_IDENT "x2") (word TOK_NUM "5"))
          ++ [nl_token]) 0)
    = Some ([mkCommand CMD_ADD (base 1) (base 2) (num_val 5)
                       false false true false BRANCH_NONE], p') /\
    stdout p' = [] /\ is_at_end p' = true.
Proof.
  apply (proj1 single_instruction_except_print_operand_a
           (I_arith (word TOK_ADD "add") (word TOK_IDENT "x1")
                  (word TOK_IDENT "x2") (word TOK_NUM "5"))
           (mkCommand CMD_ADD (base 1) (base 2) (num_val 5)
                      false false true false BRANCH_NONE)
           [nl_token] 0); reflexivity.
Defined.

(** ** Registers *)

(** C6, as stated, fails: the text [x-0] is not [x] followed by a
    base-10 numeral, and it has the shape of [x-1], yet it is accepted, as
    register 0. *)
Lemma minus_zero_is_a_register :
  let p := at_token (word TOK_IDENT "x-0") in
  parse_variable_operand p (num_val 0) = (true, base 0, snd (advance p)) /\
  ~ (exists n, plain_register_text (token_text (current p)) n).
Proof.
  cbv zeta. split; [reflexivity|].
  intros (n & ds & E & _ & D & _).
  injection E as <-. discriminate.
Qed.

(** C6, amended: an identifier token that ends where its digits end is
    accepted as a register operand exactly when its text is [x] followed
    by optional white space, an optional sign and one or more decimal
    digits, whose signed value lies in [0, 31]; that value is the index
    stored.  Every text [x] with plain digits of a value in [0, 31] is of
    this form; [x0] and [x31] are accepted, [x32] and [x-1] are rejected.
    Every register index stored in an operand of a command that
    [parse_commands] returns lies in [0, 31]. *)
Theorem register_operands :
  (forall (p : Parser) (op : Operand) (n : Z),
      tok_type (current p) = TOK_IDENT -> token_delimited (current p) ->
      (parse_variable_operand p op = (true, base n, snd (advance p))
       <-> register_text (token_text (current p)) n)) /\
  (forall (p : Parser) (op : Operand),
      fst (fst (parse_variable_operand p op)) = false ->
      parse_variable_operand p op = (false, op, p)) /\
  (forall (text : cstring) (n : Z),
      plain_register_text text n -> register_text text n) /\
  parse_variable (word TOK_IDENT "x0") = Some 0%Z /\
  parse_variable (word TOK_IDENT "x31") = Some 31%Z /\
  parse_variable (word TOK_IDENT "x32") = None /\
  parse_variable (word TOK_IDENT "x-1") = None /\
  (forall (p p' : Parser) (cmds : list Command),
      parse_commands p = Some (cmds, p') -> Forall registers_in_range cmds).
Proof.
  split; [exact parse_variable_operand_iff|].
  split.
  { intros p op H.
    destruct (parse_variable_operand_cases p op) as [(r & _ & _ & _ & E)|E];
      rewrite E in *; [discriminate|reflexivity]. }
  split; [exact plain_register_text_register|].
  repeat (split; [reflexivity|]).
  intros p p' cmds H. unfold parse_commands in H.
  eapply (parse_commands_loop_Forall registers_in_range); [|constructor|exact H].
  intros q c q' E. apply (parse_cmd_command q q' c E).
Qed.

Lemma register_operands_witness :
  parse_variable_operand (at_token (word TOK_IDENT "x17")) (num_val 0)
  = (true, base 17, snd (advance (at_token (word TOK_IDENT "x17")))).
Proof.
  apply (proj1 register_operands (at_token (word TOK_IDENT "x17")) (num_val 0) 17%Z).
  - reflexivity.
  - split; [unfold token_wf; simpl; lia|reflexivity].
  - exists (str "17"). split; [reflexivity|]. split; [|lia].
    exists [], [], (str "17"). unfold is_sign. simpl.
    repeat split; auto; discriminate.
Defined.

(** C10: on a token whose text behind the [x] is any form that [strtol]
    converts in full (white space, an optional sign, digits), the form
    itself is no obstacle: [parse_variable] accepts the token whenever the
    value lies in [0, 31], the range test being all that decides, and the
    register operand parser then stores that index.  A leading plus sign
    is such a form: [x+5] is register 5. *)
Theorem parse_variable_signed_forms (t : Token) (ws sg ds : cstring) :
  token_delimited t ->
  token_text t = "x"%char :: ws ++ sg ++ ds ->
  forallb isspace ws = true -> is_sign sg ->
  ds <> [] -> forallb is_decimal ds = true ->
  let n := signed sg (denotes 10 ds) in
  parse_variable t = (if (0 <=? n)%Z && (n <=? 31)%Z then Some n else None) /\
  (forall (p : Parser) (op : Operand),
      current p = t -> tok_type t = TOK_IDENT -> (0 <= n <= 31)%Z ->
      parse_variable_operand p op = (true, base n, snd (advance p))).
Proof.
  intros D Ht Hws Hsg Hne Hds n.
  assert (F : integer_form (ws ++ sg ++ ds) n).
  { exists ws, sg, ds. auto 7. }
  destruct (parse_variable_form t _ _ D Ht F) as [P V].
  split; [exact P|].
  intros p op <- T Hn. unfold parse_variable_operand. rewrite T, V, P.
  destruct (Z.leb_spec 0 n); [|lia]. destruct (Z.leb_spec n 31); [|lia].
  reflexivity.
Qed.

Lemma parse_variable_signed_forms_witness :
  parse_variable (word TOK_IDENT "x+5") = Some 5%Z /\
  (forall (p : Parser) (op : Operand),
      current p = word TOK_IDENT "x+5" ->
      tok_type (word TOK_IDENT "x+5") = TOK_IDENT -> (0 <= 5 <= 31)%Z ->
      parse_variable_operand p op = (true, base 5, snd (advance p))).
Proof.
  apply (parse_variable_signed_forms (word TOK_IDENT "x+5") [] (str "+") (str "5")).
  - split; [unfold token_wf; simpl; lia|reflexivity].
  - reflexivity.
  - reflexivity.
  - right. left. reflexivity.
  - discriminate.
  - reflexivity.
Defined.

(** ** Termination and the end of the input *)

(** C7: over every token stream [parse_commands] terminates, and it stops
    at the end-of-input sentinel (more rounds than the bound of the model
    give the same result); [advance] at the sentinel returns the
    sentinel and changes nothing, the lexer included; and a well-formed
    instruction that is ended by the sentinel yields the command it
    yields when ended by a line break, the parser resting at the sentinel
    in both cases. *)
Theorem parse_commands_terminates :
  (forall (lx : Lexer) (map : LabelMap),
      exists cmds p',
        parse_commands (parser_init lx map) = Some (cmds, p') /\
        is_at_end p' = true) /\
  (forall (lx : Lexer) (map : LabelMap) (fuel : nat),
      S (tokens_left (parser_init lx map)) < fuel ->
      parse_commands_loop fuel (parser_init lx map) []
      = parse_commands (parser_init lx map)) /\
  (forall p : Parser,
      is_at_end p = true ->
      advance p = (current p, p) /\
      snd (advance (snd (advance p))) = p) /\
  (forall (i : Instruction) (cmd : Command) (line e : Token) (map : LabelMap),
      built_command i = Some cmd ->
      tok_type line = TOK_NL -> tok_type e = TOK_EOF ->
      exists p1 p2,
        parse_commands (parser_init (instruction_tokens i ++ [line; e]) map)
          = Some ([cmd], p1) /\
        parse_commands (parser_init (instruction_tokens i ++ [e]) map)
          = Some ([cmd], p2) /\
        stdout p1 = [] /\ stdout p2 = [] /\
        is_at_end p1 = true /\ is_at_end p2 = true).
Proof.
  assert (I : forall lx map, had_error (parser_init lx map) = false).
  { intros lx map. unfold parser_init.
    destruct (lexer_next_token lx) as [c lx1].
    destruct (lexer_next_token lx1) as [n lx2]. reflexivity. }
  split; [|split; [|split]].
  - intros lx map. unfold parse_commands.
    apply parse_commands_loop_ends; [apply I|lia].
  - intros lx map fuel Hf. unfold parse_commands.
    destruct (parse_commands_loop_ends
                (S (S (tokens_left (parser_init lx map))))
                (parser_init lx map) [] (I lx map) ltac:(lia))
      as (cmds & p' & E & _).
    rewrite E. apply (parse_commands_loop_more_fuel _ _ _ _ E). lia.
  - intros p E. rewrite (advance_at_end p E). cbn [snd].
    rewrite (advance_at_end p E). auto.
  - intros i cmd line e map He Hl Hee.
    destruct (single_instruction i cmd [line; e] map He) as (p1 & E1 & O1 & A1).
    { cbn. rewrite Hl, Hee. reflexivity. }
    destruct (single_instruction i cmd [e] map He) as (p2 & E2 & O2 & A2).
    { cbn. rewrite Hee. apply orb_true_r. }
    exists p1, p2. auto 7.
Qed.

Lemma parse_commands_terminates_witness :
  advance (at_token eof_token) = (eof_token, at_token eof_token) /\
  snd (advance (snd (advance (at_token eof_token)))) = at_token eof_token.
Proof.
  apply (proj1 (proj2 (proj2 parse_commands_terminates)) (at_token eof_token)).
  reflexivity.
Defined.

(** ** The string flags *)

(** C8: every command that [parse_commands] returns has both string flags
    clear, and a PRINT command among them holds a string in operand A all
    the same. *)
Theorem string_flags_never_set (p p' : Parser) (cmds : list Command) :
  parse_commands p = Some (cmds, p') ->
  Forall (fun c => is_a_string c = false /\ is_b_string c = false /\
                   (cmd_type c = CMD_PRINT -> exists s, val_a c = str_val s))
         cmds.
Proof.
  intros H. unfold parse_commands in H.
  eapply (parse_commands_loop_Forall
            (fun c => is_a_string c = false /\ is_b_string c = false /\
                      (cmd_type c = CMD_PRINT -> exists s, val_a c = str_val s)));
    [|constructor|exact H].
  intros q c q' E.
  destruct (parse_cmd_command q q' c E) as (_ & [Fa Fb] & Hp). auto.
Qed.

Lemma string_flags_never_set_witness :
  Forall (fun c => is_a_string c = false /\ is_b_string c = false /\
                   (cmd_type c = CMD_PRINT -> exists s, val_a c = str_val s))
         (fst print_run).
Proof.
  apply (string_flags_never_set (parser_init (tokenize source_print) 0)
                                (snd print_run) (fst print_run)).
  vm_compute. reflexivity.
Defined.

(** * Further properties of the parser *)

(** ** The token buffer as a stream *)

Lemma parser_init_load (lx : Lexer) (map : LabelMap) :
  parser_init lx map = load lx false map [].
Proof. reflexivity. Qed.

Lemma load_cons (t : Token) (ts : Lexer) (e : bool) (m : LabelMap)
      (o : list Diagnostic) :
  load (t :: ts) e m o =
  mkParser (snd (lexer_next_token ts)) t (fst (lexer_next_token ts)) e m o.
Proof. unfold load. simpl. destruct (lexer_next_token ts). reflexivity. Qed.

Lemma load_current (t : Token) (ts : Lexer) (e : bool) (m : LabelMap)
      (o : list Diagnostic) :
  current (load (t :: ts) e m o) = t.
Proof. rewrite load_cons. reflexivity. Qed.

Lemma load_fields (ts : Lexer) (e : bool) (m : LabelMap) (o : list Diagnostic) :
  had_error (load ts e m o) = e /\ stdout (load ts e m o) = o /\
  label_map (load ts e m o) = m.
Proof.
  unfold load. destruct (lexer_next_token ts) as [c l1].
  destruct (lexer_next_token l1). auto.
Qed.

(** Advancing the parser over [t :: ts] gives the parser over [ts]. *)
Lemma load_advance (t : Token) (ts : Lexer) (e : bool) (m : LabelMap)
      (o : list Diagnostic) :
  tok_type t <> TOK_EOF ->
  advance (load (t :: ts) e m o) = (t, load ts e m o).
Proof.
  intros H. apply TokenType_eqb_neq in H.
  rewrite load_cons. unfold advance, is_at_end. cbn [current]. rewrite H.
  cbn [negb lexer next]. unfold load, set_tokens.
  destruct (lexer_next_token ts) as [c l1]. cbn [fst snd].
  destruct (lexer_next_token l1). reflexivity.
Qed.

Lemma load_set_flag (ts : Lexer) (e b : bool) (m : LabelMap)
      (o : list Diagnostic) :
  set_had_error (load ts e m o) b = load ts b m o.
Proof.
  unfold load. destruct (lexer_next_token ts) as [c l1].
  destruct (lexer_next_token l1). reflexivity.
Qed.

Lemma load_print_error (t : Token) (ts : Lexer) (e : bool) (m : LabelMap)
      (o : list Diagnostic) (msg : string) (c : option Command) :
  print_error (load (t :: ts) e m o) msg c = load (t :: ts) true m (o ++ [report t]).
Proof. rewrite !load_cons. reflexivity. Qed.

(** ** The loops, one round at a time *)

Lemma skip_nls_unfold (p : Parser) :
  skip_nls p =
  if TokenType_eqb (tok_type (current p)) TOK_NL
  then skip_nls (snd (advance p)) else p.
Proof.
  unfold skip_nls at 1. destruct (tokens_left p) as [|n] eqn:E.
  - apply tokens_left_at_end in E. unfold is_at_end in E.
    apply TokenType_eqb_eq in E. rewrite E. reflexivity.
  - cbn [skip_nls_loop]. unfold consume.
    destruct (TokenType_eqb (tok_type (current p)) TOK_NL) eqn:N; [|reflexivity].
    apply skip_nls_loop_fuel.
    assert (A : is_at_end p = false).
    { unfold is_at_end. apply TokenType_eqb_eq in N. rewrite N. reflexivity. }
    pose proof (advance_decreases p A). lia.
Qed.

Lemma skip_line_unfold (p : Parser) :
  skip_line p = if not_line_end p then skip_line (snd (advance p)) else p.
Proof.
  unfold skip_line at 1. destruct (tokens_left p) as [|n] eqn:E.
  - apply tokens_left_at_end in E. rewrite (at_end_line_end p E). reflexivity.
  - cbn [skip_line_loop].
    destruct (not_line_end p) eqn:N; [|reflexivity].
    apply skip_line_loop_fuel.
    pose proof (advance_decreases p (not_line_end_not_at_end p N)). lia.
Qed.

Lemma skip_nls_idempotent (p : Parser) : skip_nls (skip_nls p) = skip_nls p.
Proof.
  apply skip_nls_here. apply TokenType_eqb_neq. apply skip_nls_stops.
Qed.

Lemma parse_cmd_skip_nls (p : Parser) : parse_cmd (skip_nls p) = parse_cmd p.
Proof. unfold parse_cmd. rewrite skip_nls_idempotent. reflexivity. Qed.

(** Line breaks in front of the stream are skipped. *)
Lemma skip_nls_load (nls ts : list Token) (e : bool) (m : LabelMap)
      (o : list Diagnostic) :
  Forall (fun t => tok_type t = TOK_NL) nls ->
  skip_nls (load (nls ++ ts) e m o) = skip_nls (load ts e m o).
Proof.
  induction 1 as [|t nls Ht _ IH]; [reflexivity|].
  cbn [app]. rewrite skip_nls_unfold, load_current, Ht. cbn [TokenType_eqb].
  rewrite load_advance by (rewrite Ht; discriminate). exact IH.
Qed.

(** The tokens inside a line are skipped up to its line break. *)
Lemma skip_line_load (junk ts : list Token) (e : bool) (m : LabelMap)
      (o : list Diagnostic) :
  forallb inside_line junk = true ->
  skip_line (load (junk ++ ts) e m o) = skip_line (load ts e m o).
Proof.
  induction junk as [|t junk IH]; intros H; [reflexivity|].
  cbn [forallb] in H. apply andb_true_iff in H as [Ht H].
  cbn [app]. rewrite skip_line_unfold. unfold not_line_end.
  rewrite load_current. unfold inside_line in Ht. rewrite Ht.
  apply andb_true_iff in Ht as [_ Ht]. apply negb_true_iff in Ht.
  rewrite load_advance by (apply TokenType_eqb_neq; exact Ht).
  apply IH, H.
Qed.

Lemma skip_line_at_break (t : Token) (ts : list Token) (e : bool)
      (m : LabelMap) (o : list Diagnostic) :
  tok_type t = TOK_NL ->
  skip_line (load (t :: ts) e m o) = load (t :: ts) e m o.
Proof.
  intros H. rewrite skip_line_unfold. unfold not_line_end.
  rewrite load_current, H. reflexivity.
Qed.

(** ** Runs of the loop of [parse_commands] *)

Lemma parse_commands_loop_acc (fuel : nat) (p : Parser) (acc : list Command) :
  parse_commands_loop fuel p acc =
  option_map (fun r => (acc ++ fst r, snd r)) (parse_commands_loop fuel p []).
Proof.
  revert p acc. induction fuel as [|fuel IH]; intros p acc; [reflexivity|].
  rewrite !parse_commands_loop_unfold.
  destruct (negb (is_at_end p)).
  - rewrite IH. rewrite (IH _ (match fst (parse_cmd p) with
                               | Some c => [] ++ [c] | None => [] end)).
    destruct (parse_commands_loop fuel (recover (snd (parse_cmd p))) [])
      as [[cs q]|]; [|reflexivity].
    cbn [option_map fst snd]. destruct (fst (parse_cmd p));
      cbn [app]; rewrite <- ?app_assoc; reflexivity.
  - cbn. rewrite app_nil_r. reflexivity.
Qed.

Lemma runs_deterministic (p : Parser) (r1 r2 : list Command * Parser) :
  runs p r1 -> runs p r2 -> r1 = r2.
Proof.
  intros [f1 H1] [f2 H2].
  pose proof (parse_commands_loop_more_fuel _ _ _ _ H1 (Nat.max f1 f2)
                ltac:(lia)) as A.
  pose proof (parse_commands_loop_more_fuel _ _ _ _ H2 (Nat.max f1 f2)
                ltac:(lia)) as B.
  congruence.
Qed.

Lemma runs_total (p : Parser) :
  had_error p = false -> exists r, runs p r /\ is_at_end (snd r) = true.
Proof.
  intros H.
  destruct (parse_commands_loop_ends (S (tokens_left p)) p [] H ltac:(lia))
    as (cs & q & E & A).
  exists (cs, q). split; [exists (S (tokens_left p)); exact E|exact A].
Qed.

Lemma parse_commands_runs (p : Parser) (r : list Command * Parser) :
  had_error p = false -> (parse_commands p = Some r <-> runs p r).
Proof.
  intros H. split.
  - intros E. exists (S (S (tokens_left p))). exact E.
  - intros R. unfold parse_commands.
    destruct (parse_commands_loop_ends (S (S (tokens_left p))) p [] H ltac:(lia))
      as (cs & q & E & _).
    rewrite E. f_equal. eapply runs_deterministic; [|exact R].
    exists (S (S (tokens_left p))). exact E.
Qed.

Lemma runs_end (p : Parser) : is_at_end p = true -> runs p ([], p).
Proof. intros H. exists 1. rewrite parse_commands_loop_unfold, H. reflexivity. Qed.

Lemma runs_step (p q p' : Parser) (oc : option Command) (cs : list Command) :
  is_at_end p = false -> parse_cmd p = (oc, q) ->
  runs (recover q) (cs, p') ->
  runs p (match oc with Some c => c :: cs | None => cs end, p').
Proof.
  intros A E [fuel R]. exists (S fuel).
  rewrite parse_commands_loop_unfold, A, E. cbn [negb fst snd].
  rewrite parse_commands_loop_acc, R. destruct oc; reflexivity.
Qed.

(** A run from a state equals the run from behind its leading line
    breaks. *)
Lemma runs_skip_nls (p : Parser) (r : list Command * Parser) :
  had_error p = false -> runs (skip_nls p) r -> runs p r.
Proof.
  intros H R.
  destruct (TokenType_eqb (tok_type (current p)) TOK_NL) eqn:N.
  2:{ rewrite skip_nls_here in R by (apply TokenType_eqb_neq; exact N). exact R. }
  assert (A : is_at_end p = false).
  { unfold is_at_end. apply TokenType_eqb_eq in N. rewrite N. reflexivity. }
  destruct (follows_skip_nls p) as (_ & Hh & _).
  destruct (is_at_end (skip_nls p)) eqn:B.
  - pose proof (runs_deterministic _ _ _ R (runs_end _ B)) as ->.
    assert (E : parse_cmd p = (None, skip_nls p)).
    { unfold parse_cmd. rewrite Hh, H. unfold is_at_end in B. rewrite B.
      reflexivity. }
    apply (runs_step p (skip_nls p) (skip_nls p) None [] A E).
    unfold recover. rewrite Hh, H. apply runs_end, B.
  - destruct R as [[|fuel] R]; [discriminate|].
    exists (S fuel). rewrite parse_commands_loop_unfold in *.
    rewrite A, B in *. cbn [negb] in *.
    rewrite parse_cmd_skip_nls in R. exact R.
Qed.

(** ** One line of the input *)

Lemma runs_skip_nls_iff (p : Parser) (r : list Command * Parser) :
  had_error p = false -> (runs (skip_nls p) r <-> runs p r).
Proof.
  intros H. split; [apply runs_skip_nls, H|].
  intros R.
  destruct (follows_skip_nls p) as (_ & Hh & _).
  destruct (runs_total (skip_nls p)) as (r' & R' & _); [congruence|].
  pose proof (runs_skip_nls p r' H R') as R''.
  rewrite (runs_deterministic p r r' R R''). exact R'.
Qed.

(** A run over a stream does not see the line breaks in front of it. *)
Lemma runs_blank_lines (nls ts : list Token) (m : LabelMap)
      (o : list Diagnostic) (r : list Command * Parser) :
  Forall (fun t => tok_type t = TOK_NL) nls ->
  (runs (load (nls ++ ts) false m o) r <-> runs (load ts false m o) r).
Proof.
  intros H.
  rewrite <- (runs_skip_nls_iff (load (nls ++ ts) false m o))
    by apply load_fields.
  rewrite <- (runs_skip_nls_iff (load ts false m o)) by apply load_fields.
  rewrite (skip_nls_load nls ts false m o H). reflexivity.
Qed.

Lemma source_register_none (p : Parser) (op : Operand) :
  source_register (current p) = None ->
  parse_variable_operand p op = (false, op, p).
Proof.
  unfold source_register, source_operand, parse_variable_operand.
  destruct (TokenType_eqb (tok_type (current p)) TOK_IDENT) eqn:T;
    [|reflexivity].
  apply TokenType_eqb_eq in T. rewrite T. cbn [negb orb].
  destruct (is_variable (current p)); [|reflexivity]. cbn [negb].
  destruct (parse_variable (current p)); [discriminate|reflexivity].
Qed.

Lemma source_operand_not_eof (t : Token) (s : SourceOperand) :
  source_operand t = Some s -> tok_type t <> TOK_EOF.
Proof.
  intros H E. unfold source_operand in H. rewrite E in H. discriminate.
Qed.

Lemma parse_variable_operand_load (d : Token) (ts : list Token) (e : bool)
      (m : LabelMap) (o : list Diagnostic) (op : Operand) (r : Z) :
  source_register d = Some r ->
  parse_variable_operand (load (d :: ts) e m o) op = (true, base r, load ts e m o).
Proof.
  intros H. apply source_register_inv in H as (T & V & P).
  unfold parse_variable_operand. rewrite load_current, T, V, P.
  cbn [TokenType_eqb negb orb].
  rewrite load_advance by (rewrite T; discriminate). reflexivity.
Qed.

Lemma parse_var_or_imm_load (a : Token) (ts : list Token) (e : bool)
      (m : LabelMap) (o : list Diagnostic) (op : Operand) (i : bool)
      (s : SourceOperand) :
  source_operand a = Some s ->
  parse_var_or_imm (load (a :: ts) e m o) op i
  = (true, operand_value s, is_literal s, load ts e m o).
Proof.
  intros H.
  destruct (source_operand_inv a s H) as [(r & -> & T & V & P)|(v & -> & T & P)];
    unfold parse_var_or_imm, parse_variable_operand, parse_imm;
    rewrite load_current, T; cbn [TokenType_eqb negb orb].
  - rewrite V, P. cbn [negb].
    rewrite load_advance by (rewrite T; discriminate). reflexivity.
  - rewrite P. cbn [negb].
    rewrite load_advance by (rewrite T; discriminate). reflexivity.
Qed.

Lemma parse_cmd_dispatch (kw : Token) (ts : list Token) (m : LabelMap)
      (o : list Diagnostic) :
  inside_line kw = true ->
  parse_cmd (load (kw :: ts) false m o) =
  match tok_type kw with
  | TOK_ADD => parse_arith CMD_ADD (load (kw :: ts) false m o)
  | TOK_SUB => parse_arith CMD_SUB (load (kw :: ts) false m o)
  | TOK_MOV => parse_mov (load (kw :: ts) false m o)
  | TOK_CMP => parse_compare CMD_CMP (load (kw :: ts) false m o)
  | TOK_CMP_U => parse_compare CMD_CMP_U (load (kw :: ts) false m o)
  | TOK_PRINT => parse_print (load (kw :: ts) false m o)
  | _ => (None, skip_line (load (kw :: ts) true m (o ++ [report kw])))
  end.
Proof.
  intros H. unfold inside_line in H. apply andb_true_iff in H as [N E].
  apply negb_true_iff in N. apply negb_true_iff in E.
  unfold parse_cmd.
  rewrite skip_nls_here by (rewrite load_current; apply TokenType_eqb_neq, N).
  destruct (load_fields (kw :: ts) false m o) as (-> & _).
  rewrite load_current, E.
  rewrite load_print_error.
  destruct (tok_type kw); try reflexivity; discriminate.
Qed.

(** After the operands of a well-formed instruction, [parse_cmd] is at the
    end-of-line test with the command built. *)
Lemma parse_cmd_operands (i : Instruction) (cmd : Command) (ts : list Token)
      (m : LabelMap) (o : list Diagnostic) :
  built_command i = Some cmd ->
  parse_cmd (load (instruction_tokens i ++ ts) false m o)
  = finish_command (load ts false m o) cmd.
Proof.
  intros He.
  destruct i as [kw d a b|kw d a|kw a b|kw sig v]; cbn in He;
    cbn [instruction_tokens app].
  - destruct (tok_type kw) eqn:K; try discriminate;
      destruct (source_register d) eqn:D; try discriminate;
      destruct (source_operand a) eqn:A; try discriminate;
      destruct (source_operand b) eqn:B; try discriminate;
      injection He as <-;
      (rewrite parse_cmd_dispatch by (unfold inside_line; rewrite K; reflexivity));
      rewrite K; unfold parse_arith;
      (rewrite load_advance by (rewrite K; discriminate)); cbn [snd];
      rewrite (parse_variable_operand_load _ _ _ _ _ _ _ D); cbn [negb];
      rewrite (parse_var_or_imm_load _ _ _ _ _ _ _ _ A); cbn [negb];
      rewrite (parse_var_or_imm_load _ _ _ _ _ _ _ _ B); cbn [negb];
      reflexivity.
  - destruct (tok_type kw) eqn:K; try discriminate;
      destruct (source_register d) eqn:D; try discriminate;
      destruct (source_operand a) eqn:A; try discriminate;
      injection He as <-;
      (rewrite parse_cmd_dispatch by (unfold inside_line; rewrite K; reflexivity));
      rewrite K; unfold parse_mov;
      (rewrite load_advance by (rewrite K; discriminate)); cbn [snd];
      rewrite (parse_variable_operand_load _ _ _ _ _ _ _ D); cbn [negb];
      rewrite (parse_var_or_imm_load _ _ _ _ _ _ _ _ A); cbn [negb];
      reflexivity.
  - destruct (tok_type kw) eqn:K; try discriminate;
      destruct (source_operand a) eqn:A; try discriminate;
      destruct (source_operand b) eqn:B; try discriminate;
      injection He as <-;
      (rewrite parse_cmd_dispatch by (unfold inside_line; rewrite K; reflexivity));
      rewrite K; unfold parse_compare;
      (rewrite load_advance by (rewrite K; discriminate)); cbn [snd];
      rewrite (parse_var_or_imm_load _ _ _ _ _ _ _ _ A); cbn [negb];
      rewrite (parse_var_or_imm_load _ _ _ _ _ _ _ _ B); cbn [negb];
      reflexivity.
  - destruct (tok_type kw) eqn:K; try discriminate;
      destruct (tok_type sig) eqn:G; try discriminate;
      destruct (is_base sig) eqn:S; try discriminate;
      destruct (source_operand v) eqn:V; try discriminate;
      injection He as <-;
      (rewrite parse_cmd_dispatch by (unfold inside_line; rewrite K; reflexivity));
      rewrite K; unfold parse_print;
      (rewrite load_advance by (rewrite K; discriminate)); cbn [snd];
      rewrite load_current, S; cbn [negb];
      (rewrite load_advance by (rewrite G; discriminate)); cbn [snd];
      rewrite (parse_var_or_imm_load _ _ _ _ _ _ _ _ V); cbn [negb];
      reflexivity.
Qed.

Lemma finish_command_break (t : Token) (ts : list Token) (e : bool)
      (m : LabelMap) (o : list Diagnostic) (c : Command) :
  tok_type t = TOK_NL ->
  finish_command (load (t :: ts) e m o) c = (Some c, load ts e m o).
Proof.
  intros H. unfold finish_command, not_line_end.
  rewrite load_current, H. cbn [TokenType_eqb negb andb].
  rewrite load_advance by (rewrite H; discriminate). reflexivity.
Qed.

Lemma finish_command_end (p : Parser) (c : Command) :
  is_at_end p = true -> finish_command p c = (Some c, p).
Proof.
  intros H. unfold finish_command.
  rewrite (at_end_line_end p H), (advance_at_end p H). reflexivity.
Qed.

Lemma finish_command_inside (t : Token) (ts : list Token) (e : bool)
      (m : LabelMap) (o : list Diagnostic) (c : Command) :
  inside_line t = true ->
  finish_command (load (t :: ts) e m o) c
  = (None, load (t :: ts) true m (o ++ [report t])).
Proof.
  intros H. unfold finish_command, not_line_end.
  rewrite load_current. unfold inside_line in H. rewrite H.
  rewrite load_print_error. reflexivity.
Qed.

(** The recovery block brings the parser to the line break of the line. *)
Lemma recover_line (junk : list Token) (t : Token) (ts : list Token)
      (m : LabelMap) (o : list Diagnostic) :
  forallb inside_line junk = true -> tok_type t = TOK_NL ->
  recover (load (junk ++ t :: ts) true m o) = load (t :: ts) false m o.
Proof.
  intros J T. unfold recover.
  destruct (load_fields (junk ++ t :: ts) true m o) as (-> & _).
  rewrite (skip_line_load junk (t :: ts) true m o J).
  rewrite (skip_line_at_break t ts true m o T).
  apply load_set_flag.
Qed.

Lemma recover_clear (p : Parser) : had_error p = false -> recover p = p.
Proof. unfold recover. intros ->. reflexivity. Qed.

Lemma inside_line_not_at_end (t : Token) (ts : list Token) (e : bool)
      (m : LabelMap) (o : list Diagnostic) :
  inside_line t = true -> is_at_end (load (t :: ts) e m o) = false.
Proof.
  unfold inside_line, is_at_end. rewrite load_current. intros H.
  apply andb_true_iff in H as [_ H]. apply negb_true_iff in H. exact H.
Qed.

(** A failed line that the recovery block ends at its own line break
    leaves the run of the lines behind it untouched. *)
Lemma runs_failed_line (p : Parser) (junk : list Token) (t : Token)
      (ts : list Token) (m : LabelMap) (o' : list Diagnostic)
      (r : list Command * Parser) :
  is_at_end p = false ->
  parse_cmd p = (None, load (junk ++ t :: ts) true m o') ->
  forallb inside_line junk = true -> tok_type t = TOK_NL ->
  runs (load ts false m o') r ->
  runs p r.
Proof.
  intros F E J T R. destruct r as [cs p'].
  apply (runs_step _ _ p' None cs F E).
  rewrite (recover_line junk t ts m o' J T).
  apply (runs_blank_lines [t] ts m o' (cs, p')); [|exact R].
  constructor; [exact T|constructor].
Qed.

(** ** The reports already printed do not influence the parser *)

Lemma with_reports_load (o o' : list Diagnostic) (ts : list Token) (e : bool)
      (m : LabelMap) :
  with_reports o (load ts e m o') = load ts e m (o ++ o').
Proof.
  unfold load. destruct (lexer_next_token ts) as [c l1].
  destruct (lexer_next_token l1). reflexivity.
Qed.

Lemma advance_reports (o : list Diagnostic) (p : Parser) :
  advance (with_reports o p) = (fst (advance p), with_reports o (snd (advance p))).
Proof.
  unfold advance, is_at_end. cbn [current with_reports lexer next].
  destruct (negb (TokenType_eqb (tok_type (current p)) TOK_EOF)); [|reflexivity].
  destruct (lexer_next_token (lexer p)). reflexivity.
Qed.

Lemma skip_nls_reports (o : list Diagnostic) (p : Parser) :
  skip_nls (with_reports o p) = with_reports o (skip_nls p).
Proof.
  unfold skip_nls. change (tokens_left (with_reports o p)) with (tokens_left p).
  generalize (tokens_left p) as fuel. intros fuel. revert p.
  induction fuel as [|fuel IH]; intros p; [reflexivity|].
  cbn [skip_nls_loop]. unfold consume. cbn [current with_reports].
  destruct (TokenType_eqb (tok_type (current p)) TOK_NL); [|reflexivity].
  rewrite advance_reports. cbn [snd]. apply IH.
Qed.

Lemma skip_line_reports (o : list Diagnostic) (p : Parser) :
  skip_line (with_reports o p) = with_reports o (skip_line p).
Proof.
  unfold skip_line. change (tokens_left (with_reports o p)) with (tokens_left p).
  generalize (tokens_left p) as fuel. intros fuel. revert p.
  induction fuel as [|fuel IH]; intros p; [reflexivity|].
  cbn [skip_line_loop].
  change (not_line_end (with_reports o p)) with (not_line_end p).
  destruct (not_line_end p); [|reflexivity].
  rewrite advance_reports. cbn [snd]. apply IH.
Qed.

Lemma print_error_reports (o : list Diagnostic) (p : Parser) (msg : string)
      (c : option Command) :
  print_error (with_reports o p) msg c = with_reports o (print_error p msg c).
Proof.
  unfold print_error, with_reports. cbn. rewrite app_assoc. reflexivity.
Qed.

Lemma parse_variable_operand_reports (o : list Diagnostic) (p : Parser)
      (op : Operand) :
  parse_variable_operand (with_reports o p) op =
  (fst (parse_variable_operand p op),
   with_reports o (snd (parse_variable_operand p op))).
Proof.
  unfold parse_variable_operand. cbn [current with_reports].
  destruct (negb (TokenType_eqb (tok_type (current p)) TOK_IDENT)
            || negb (is_variable (current p))); [reflexivity|].
  destruct (parse_variable (current p)); [|reflexivity].
  rewrite advance_reports. reflexivity.
Qed.

Lemma parse_imm_reports (o : list Diagnostic) (p : Parser) (op : Operand) :
  parse_imm (with_reports o p) op =
  (fst (parse_imm p op), with_reports o (snd (parse_imm p op))).
Proof.
  unfold parse_imm. cbn [current with_reports].
  destruct (negb (TokenType_eqb (tok_type (current p)) TOK_NUM)); [reflexivity|].
  destruct (imm_value (current p)); [|reflexivity].
  rewrite advance_reports. reflexivity.
Qed.

Lemma parse_var_or_imm_reports (o : list Diagnostic) (p : Parser)
      (op : Operand) (i : bool) :
  parse_var_or_imm (with_reports o p) op i =
  (fst (parse_var_or_imm p op i),
   with_reports o (snd (parse_var_or_imm p op i))).
Proof.
  unfold parse_var_or_imm. cbn [current with_reports].
  destruct (TokenType_eqb (tok_type (current p)) TOK_IDENT).
  - rewrite parse_variable_operand_reports.
    destruct (parse_variable_operand p op) as [[[|] d] q]; reflexivity.
  - destruct (TokenType_eqb (tok_type (current p)) TOK_NUM).
    + rewrite parse_imm_reports.
      destruct (parse_imm p op) as [[[|] d] q]; reflexivity.
    + rewrite advance_reports. reflexivity.
Qed.

Lemma finish_command_reports (o : list Diagnostic) (p : Parser) (c : Command) :
  finish_command (with_reports o p) c =
  (fst (finish_command p c), with_reports o (snd (finish_command p c))).
Proof.
  unfold finish_command.
  change (not_line_end (with_reports o p)) with (not_line_end p).
  destruct (not_line_end p).
  - rewrite print_error_reports. reflexivity.
  - rewrite advance_reports. reflexivity.
Qed.

Ltac reports_step :=
  first
    [ rewrite advance_reports; cbn [fst snd]
    | rewrite parse_variable_operand_reports;
      match goal with
      | |- context [parse_variable_operand ?p ?op] =>
          destruct (parse_variable_operand p op) as [[[|] ?] ?]
      end; cbn [fst snd negb]
    | rewrite parse_var_or_imm_reports;
      match goal with
      | |- context [parse_var_or_imm ?p ?op ?i] =>
          destruct (parse_var_or_imm p op i) as [[[[|] ?] ?] ?]
      end; cbn [fst snd negb]
    | rewrite print_error_reports; reflexivity
    | rewrite finish_command_reports; reflexivity ].

Lemma parse_arith_reports (o : list Diagnostic) (type : CommandType)
      (p : Parser) :
  parse_arith type (with_reports o p) =
  (fst (parse_arith type p), with_reports o (snd (parse_arith type p))).
Proof. unfold parse_arith. repeat reports_step. Qed.

Lemma parse_mov_reports (o : list Diagnostic) (p : Parser) :
  parse_mov (with_reports o p) =
  (fst (parse_mov p), with_reports o (snd (parse_mov p))).
Proof. unfold parse_mov. repeat reports_step. Qed.

Lemma parse_compare_reports (o : list Diagnostic) (type : CommandType)
      (p : Parser) :
  parse_compare type (with_reports o p) =
  (fst (parse_compare type p), with_reports o (snd (parse_compare type p))).
Proof. unfold parse_compare. repeat reports_step. Qed.

Lemma parse_print_reports (o : list Diagnostic) (p : Parser) :
  parse_print (with_reports o p) =
  (fst (parse_print p), with_reports o (snd (parse_print p))).
Proof.
  unfold parse_print. reports_step. cbn [current with_reports].
  destruct (negb (is_base (current (snd (advance p))))).
  - reports_step.
  - repeat reports_step.
Qed.

Lemma parse_cmd_reports (o : list Diagnostic) (p : Parser) :
  parse_cmd (with_reports o p) =
  (fst (parse_cmd p), with_reports o (snd (parse_cmd p))).
Proof.
  unfold parse_cmd. rewrite skip_nls_reports.
  cbn [had_error current with_reports].
  destruct (had_error (skip_nls p)); [reflexivity|].
  destruct (TokenType_eqb (tok_type (current (skip_nls p))) TOK_EOF);
    [reflexivity|].
  destruct (tok_type (current (skip_nls p)));
    first [ apply parse_arith_reports | apply parse_mov_reports
          | apply parse_compare_reports | apply parse_print_reports
          | rewrite print_error_reports, skip_line_reports; reflexivity ].
Qed.

Lemma recover_reports (o : list Diagnostic) (p : Parser) :
  recover (with_reports o p) = with_reports o (recover p).
Proof.
  unfold recover. cbn [had_error with_reports].
  destruct (had_error p); [|reflexivity].
  rewrite skip_line_reports. reflexivity.
Qed.

Lemma parse_commands_loop_reports (o : list Diagnostic) (fuel : nat)
      (p : Parser) (acc : list Command) :
  parse_commands_loop fuel (with_reports o p) acc =
  option_map (fun r => (fst r, with_reports o (snd r)))
             (parse_commands_loop fuel p acc).
Proof.
  revert p acc. induction fuel as [|fuel IH]; intros p acc; [reflexivity|].
  rewrite !parse_commands_loop_unfold.
  change (is_at_end (with_reports o p)) with (is_at_end p).
  destruct (negb (is_at_end p)); [|reflexivity].
  rewrite parse_cmd_reports. cbn [fst snd].
  rewrite recover_reports. apply IH.
Qed.

(** A run that starts with the reports [o] already printed is the run
    that starts with none, with [o] in front of its reports. *)
Lemma runs_reports (o : list Diagnostic) (p p' : Parser) (cs : list Command) :
  runs p (cs, p') -> runs (with_reports o p) (cs, with_reports o p').
Proof.
  intros [fuel R]. exists fuel.
  rewrite parse_commands_loop_reports, R. reflexivity.
Qed.

(** ** One call of [parse_cmd] *)

Lemma follows_flag (q p : Parser) : follows q p -> had_error q = had_error p.
Proof. intros (_ & H & _). exact H. Qed.

Lemma outcome_print_error (p q : Parser) (msg : string) (c : option Command) :
  had_error p = false -> follows q p -> Outcome p (None, print_error q msg c).
Proof.
  intros _ (_ & _ & Ho). apply Failed with (d := report (current q)).
  - reflexivity.
  - cbn [print_error stdout]. rewrite Ho. reflexivity.
Qed.

Lemma outcome_finish (p q : Parser) (c : Command) :
  had_error p = false -> follows q p -> Outcome p (finish_command q c).
Proof.
  intros Hp F. unfold finish_command. destruct (not_line_end q).
  - apply outcome_print_error; assumption.
  - pose proof (follows_trans _ _ _ (follows_advance q) F) as (_ & Hh & Ho).
    apply Parsed; congruence.
Qed.

Ltac outcome_call :=
  match goal with
  | |- context [parse_variable_operand ?p ?o] =>
      let H := fresh "F" in
      pose proof (follows_parse_variable_operand p o) as H;
      destruct (parse_variable_operand p o) as [[[|] ?] ?]; cbn [snd fst negb] in *
  | |- context [parse_var_or_imm ?p ?o ?i] =>
      let H := fresh "F" in
      pose proof (follows_parse_var_or_imm p o i) as H;
      destruct (parse_var_or_imm p o i) as [[[[|] ?] ?] ?]; cbn [snd fst negb] in *
  end.

Ltac outcome_tac :=
  repeat outcome_call;
  first [ apply outcome_print_error | apply outcome_finish ];
  eauto using follows_trans, follows_advance, follows_refl.

Lemma parse_arith_outcome (type : CommandType) (p : Parser) :
  had_error p = false -> Outcome p (parse_arith type p).
Proof. intros H. unfold parse_arith. outcome_tac. Qed.

Lemma parse_mov_outcome (p : Parser) :
  had_error p = false -> Outcome p (parse_mov p).
Proof. intros H. unfold parse_mov. outcome_tac. Qed.

Lemma parse_compare_outcome (type : CommandType) (p : Parser) :
  had_error p = false -> Outcome p (parse_compare type p).
Proof. intros H. unfold parse_compare. outcome_tac. Qed.

Lemma parse_print_outcome (p : Parser) :
  had_error p = false -> Outcome p (parse_print p).
Proof.
  intros H. unfold parse_print.
  destruct (negb (is_base (current (snd (advance p))))).
  - apply outcome_print_error; [exact H|apply follows_advance].
  - pose proof (follows_trans _ _ _ (follows_advance (snd (advance p)))
                              (follows_advance p)).
    outcome_tac.
Qed.

Lemma outcome_behind (p q : Parser) (r : option Command * Parser) :
  follows q p -> Outcome q r -> Outcome p r.
Proof.
  intros (_ & _ & Ho) O. destruct O as [c q' Hh Hs|q' Hh Hs He|q' d Hh Hs].
  - apply Parsed; congruence.
  - apply Finished; congruence.
  - apply Failed with (d := d); congruence.
Qed.

Lemma parse_cmd_outcome (p : Parser) :
  had_error p = false -> Outcome p (parse_cmd p).
Proof.
  intros H. unfold parse_cmd.
  pose proof (follows_skip_nls p) as F.
  apply (outcome_behind p (skip_nls p) _ F).
  rewrite (follows_flag _ _ F), H.
  assert (Hq : had_error (skip_nls p) = false)
    by (rewrite (follows_flag _ _ F); exact H).
  remember (skip_nls p) as q eqn:Eq. clear Eq F.
  destruct (TokenType_eqb (tok_type (current q)) TOK_EOF) eqn:E.
  - apply Finished; auto.
  - assert (D : Outcome q (None, skip_line (print_error q "Unrecognized command." None))).
    { destruct (follows_skip_line (print_error q "Unrecognized command." None))
        as (_ & Hh & Ho).
      apply Failed with (d := report (current q)); [rewrite Hh|rewrite Ho];
        reflexivity. }
    destruct (tok_type (current q));
      first [ exact D
            | apply parse_arith_outcome, Hq | apply parse_mov_outcome, Hq
            | apply parse_compare_outcome, Hq | apply parse_print_outcome, Hq ].
Qed.

Lemma parse_cmd_halted (p : Parser) :
  had_error p = true -> parse_cmd p = (None, skip_nls p).
Proof.
  intros H. unfold parse_cmd.
  rewrite (follows_flag _ _ (follows_skip_nls p)), H. reflexivity.
Qed.

(** ** The size of the output *)

Lemma recover_stdout (p : Parser) : stdout (recover p) = stdout p.
Proof.
  unfold recover. destruct (had_error p); [|reflexivity].
  cbn [set_had_error stdout]. apply follows_skip_line.
Qed.

Lemma parse_commands_loop_output (fuel : nat) (p p' : Parser)
      (acc cs : list Command) :
  had_error p = false ->
  parse_commands_loop fuel p acc = Some (cs, p') ->
  had_error p' = false /\
  exists ds, stdout p' = stdout p ++ ds /\
             List.length cs + List.length ds <= List.length acc + tokens_left p.
Proof.
  revert p acc. induction fuel as [|fuel IH]; intros p acc H R; [discriminate|].
  rewrite parse_commands_loop_unfold in R.
  destruct (is_at_end p) eqn:A; cbn [negb] in R.
  - injection R as <- <-. split; [exact H|].
    exists []. rewrite app_nil_r. simpl. split; [reflexivity|lia].
  - pose proof (parse_cmd_progress p H A) as Pr.
    pose proof (parse_cmd_outcome p H) as O.
    destruct (recover_spec (snd (parse_cmd p))) as [Rl Rh].
    pose proof (recover_stdout (snd (parse_cmd p))) as Rs.
    destruct (IH _ _ Rh R) as (Hf & ds & Hs & Hb).
    split; [exact Hf|]. rewrite Rs in Hs.
    destruct (parse_cmd p) as [oc q]. cbn [fst snd] in *.
    inversion O as [c q' Hh Ho|q' Hh Ho He|q' d Hh Ho]; subst.
    + exists ds. rewrite Hs, Ho. split; [reflexivity|].
      rewrite length_app in Hb. simpl in Hb. lia.
    + exists ds. rewrite Hs, Ho. split; [reflexivity|]. lia.
    + exists (d :: ds). rewrite Hs, Ho, <- app_assoc. split; [reflexivity|].
      simpl. lia.
Qed.

Lemma tokens_left_init (lx : Lexer) (map : LabelMap) :
  tokens_left (parser_init lx map) <= List.length lx.
Proof.
  unfold parser_init, tokens_left, is_at_end.
  destruct lx as [|c [|n lx]]; simpl.
  - reflexivity.
  - destruct (TokenType_eqb (tok_type c) TOK_EOF); lia.
  - destruct (TokenType_eqb (tok_type c) TOK_EOF); [lia|].
    destruct (TokenType_eqb (tok_type n) TOK_EOF); lia.
Qed.

(** ** The commands, slot by slot *)

Lemma wrap64_bound (v : Z) : (0 <= wrap64 v < 2 ^ 64)%Z.
Proof. unfold wrap64. apply Z.mod_pos_bound. reflexivity. Qed.

Lemma imm_hex_loop_bound (s : cstring) (n i : nat) (v r : Z) :
  (0 <= v < 2 ^ 64)%Z -> imm_hex_loop s i n v = Some r -> (0 <= r < 2 ^ 64)%Z.
Proof.
  revert i v. induction n as [|n IH]; intros i v Hv H; cbn [imm_hex_loop] in H.
  - injection H as <-. exact Hv.
  - destruct (in_range "0" "9" (char_at s i));
      [exact (IH _ _ (wrap64_bound _) H)|].
    destruct (in_range "a" "f" (char_at s i));
      [exact (IH _ _ (wrap64_bound _) H)|].
    destruct (in_range "A" "F" (char_at s i));
      [exact (IH _ _ (wrap64_bound _) H)|discriminate].
Qed.

Lemma imm_bin_loop_bound (s : cstring) (n i : nat) (v r : Z) :
  (0 <= v < 2 ^ 64)%Z -> imm_bin_loop s i n v = Some r -> (0 <= r < 2 ^ 64)%Z.
Proof.
  revert i v. induction n as [|n IH]; intros i v Hv H; cbn [imm_bin_loop] in H.
  - injection H as <-. exact Hv.
  - destruct (Ascii.eqb (char_at s i) "0" || Ascii.eqb (char_at s i) "1");
      [exact (IH _ _ (wrap64_bound _) H)|discriminate].
Qed.

Lemma imm_dec_loop_bound (s : cstring) (n i : nat) (v r : Z) :
  (0 <= v < 2 ^ 64)%Z -> imm_dec_loop s i n v = Some r -> (0 <= r < 2 ^ 64)%Z.
Proof.
  revert i v. induction n as [|n IH]; intros i v Hv H; cbn [imm_dec_loop] in H.
  - injection H as <-. exact Hv.
  - destruct (in_range "0" "9" (char_at s i));
      [exact (IH _ _ (wrap64_bound _) H)|discriminate].
Qed.

(** Whatever the token, an accepted immediate is a 64-bit value. *)
Lemma imm_value_bound (t : Token) (v : Z) :
  imm_value t = Some v -> (0 <= v < 2 ^ 64)%Z.
Proof.
  unfold imm_value. intros H.
  assert (Z0 : (0 <= 0 < 2 ^ 64)%Z) by (split; [lia|reflexivity]).
  destruct ((2 <=? tok_length t) && Ascii.eqb (char_at (tok_lexeme t) 0) "0").
  - destruct (Ascii.eqb (char_at (tok_lexeme t) 1) "x"
              || Ascii.eqb (char_at (tok_lexeme t) 1) "X").
    + exact (imm_hex_loop_bound _ _ _ _ _ Z0 H).
    + destruct (Ascii.eqb (char_at (tok_lexeme t) 1) "b"
                || Ascii.eqb (char_at (tok_lexeme t) 1) "B"); [|discriminate].
      exact (imm_bin_loop_bound _ _ _ _ _ Z0 H).
  - exact (imm_dec_loop_bound _ _ _ _ _ Z0 H).
Qed.

(** The string copied for a base signifier begins with the signifier. *)
Lemma strdup_signifier (t : Token) :
  is_base t = true ->
  starts_with_signifier (str_val (strdup (tok_lexeme t))) = true.
Proof.
  unfold is_base, strdup. intros H. apply andb_true_iff in H as [_ H].
  destruct (tok_lexeme t) as [|c r]; [discriminate|].
  cbn [char_at nth] in H. cbn [c_str].
  destruct (Ascii.eqb_spec c NUL) as [->|_]; [discriminate|].
  exact H.
Qed.

Ltac shape_cases :=
  match goal with
  | H : context [parse_variable_operand ?p ?o] |- _ =>
      let r := fresh "r" in let E := fresh "E" in
      destruct (parse_variable_operand_cases p o) as [(r & _ & _ & _ & E)|E];
      rewrite E in H; clear E; cbn [negb] in H
  | H : context [parse_var_or_imm ?p ?o ?i] |- _ =>
      let r := fresh "r" in let B := fresh "B" in let E := fresh "E" in
      destruct (parse_var_or_imm_cases p o i)
        as [(r & _ & _ & _ & E)|[(r & _ & B & E)|[(_ & E)|(_ & _ & E)]]];
      [|apply imm_value_bound in B| |]; rewrite E in H; clear E;
      cbn [negb] in H
  end.

Ltac shape_tac :=
  repeat shape_cases; try discriminate; finish_cases;
  unfold operands_are_words, operand_is_word; cbn;
  repeat split; try assumption; try reflexivity; try lia.

Lemma parse_arith_shape (type : CommandType) (p q : Parser) (c : Command) :
  type = CMD_ADD \/ type = CMD_SUB ->
  parse_arith type p = (Some c, q) ->
  command_shape c = true /\ operands_are_words c.
Proof. unfold parse_arith. intros [-> | ->] H; shape_tac. Qed.

Lemma parse_mov_shape (p q : Parser) (c : Command) :
  parse_mov p = (Some c, q) -> command_shape c = true /\ operands_are_words c.
Proof. unfold parse_mov. intros H. shape_tac. Qed.

Lemma parse_compare_shape (type : CommandType) (p q : Parser) (c : Command) :
  type = CMD_CMP \/ type = CMD_CMP_U ->
  parse_compare type p = (Some c, q) ->
  command_shape c = true /\ operands_are_words c.
Proof. unfold parse_compare. intros [-> | ->] H; shape_tac. Qed.

Lemma parse_print_shape (p q : Parser) (c : Command) :
  parse_print p = (Some c, q) -> command_shape c = true /\ operands_are_words c.
Proof.
  unfold parse_print. intros H.
  destruct (is_base (current (snd (advance p)))) eqn:S; [|discriminate].
  cbn [negb] in H. apply strdup_signifier in S.
  repeat shape_cases; try discriminate; finish_cases;
    unfold operands_are_words, operand_is_word, command_shape; cbn;
    cbn in S; rewrite S; repeat split; try assumption; try reflexivity; try lia.
Qed.

Lemma parse_cmd_shape (p q : Parser) (c : Command) :
  parse_cmd p = (Some c, q) -> command_shape c = true /\ operands_are_words c.
Proof.
  unfold parse_cmd. intros H.
  destruct (had_error (skip_nls p)); [discriminate|].
  destruct (TokenType_eqb (tok_type (current (skip_nls p))) TOK_EOF);
    [discriminate|].
  destruct (tok_type (current (skip_nls p))); try discriminate;
    first [ apply parse_arith_shape in H; [exact H|auto]
          | apply parse_mov_shape in H; exact H
          | apply parse_compare_shape in H; [exact H|auto]
          | apply parse_print_shape in H; exact H ].
Qed.

(** ** Lines and programs *)

Lemma instruction_head (i : Instruction) (cmd : Command) :
  built_command i = Some cmd ->
  exists kw more, instruction_tokens i = kw :: more /\ inside_line kw = true.
Proof.
  intros H.
  destruct i as [kw d a b|kw d a|kw a b|kw sig v]; cbn in H;
    destruct (tok_type kw) eqn:K; try discriminate;
    eexists; eexists; (split; [reflexivity|]);
    unfold inside_line; rewrite K; reflexivity.
Qed.

Lemma opens_no_instruction_inside (t : Token) :
  opens_no_instruction t = true -> inside_line t = true.
Proof.
  unfold opens_no_instruction, inside_line.
  destruct (tok_type t); try discriminate; reflexivity.
Qed.

Lemma takes_destination_inside (t : Token) :
  takes_destination t = true -> inside_line t = true.
Proof.
  unfold takes_destination, inside_line.
  destruct (tok_type t); try discriminate; reflexivity.
Qed.

Lemma source_register_break (t : Token) :
  tok_type t = TOK_NL -> source_register t = None.
Proof.
  intros H. unfold source_register, source_operand. rewrite H. reflexivity.
Qed.

(** An ADD, SUB or MOV whose first operand is no register: the report
    names that token, which stays the current one. *)
Lemma parse_cmd_bad_destination (kw d : Token) (ts : list Token)
      (m : LabelMap) (o : list Diagnostic) :
  takes_destination kw = true -> source_register d = None ->
  parse_cmd (load (kw :: d :: ts) false m o)
  = (None, load (d :: ts) true m (o ++ [report d])).
Proof.
  intros K D.
  rewrite parse_cmd_dispatch by (apply takes_destination_inside, K).
  assert (E : tok_type kw <> TOK_EOF).
  { intros E. unfold takes_destination in K. rewrite E in K. discriminate. }
  assert (F : parse_variable_operand (load (d :: ts) false m o) (num_val 0)
              = (false, num_val 0, load (d :: ts) false m o)).
  { apply source_register_none. rewrite load_current. exact D. }
  pose proof (load_advance kw (d :: ts) false m o E) as A.
  unfold takes_destination in K.
  destruct (tok_type kw); try discriminate;
    unfold parse_arith, parse_mov;
    rewrite A; cbn [snd];
    cbn [create_command destination]; rewrite F; cbn [negb];
    rewrite load_print_error; reflexivity.
Qed.

Lemma rejected_operand_inv (t : Token) :
  rejected_operand t = true ->
  (tok_type t = TOK_IDENT \/ tok_type t = TOK_NUM) /\ source_operand t = None.
Proof.
  unfold rejected_operand. intros H. apply andb_true_iff in H as [T S].
  split.
  - apply orb_true_iff in T as [T|T]; apply TokenType_eqb_eq in T; auto.
  - destruct (source_operand t); [discriminate|reflexivity].
Qed.

(** A rejected identifier or number is reported where it stands. *)
Lemma parse_var_or_imm_rejected (t : Token) (ts : list Token) (e : bool)
      (m : LabelMap) (o : list Diagnostic) (op : Operand) (i : bool) :
  rejected_operand t = true ->
  parse_var_or_imm (load (t :: ts) e m o) op i
  = (false, op, i, load (t :: ts) e m o).
Proof.
  intros H. destruct (rejected_operand_inv t H) as [T S].
  unfold source_operand in S.
  unfold parse_var_or_imm, parse_variable_operand, parse_imm.
  rewrite load_current.
  destruct T as [T|T]; rewrite T in *; cbn [TokenType_eqb negb orb].
  - destruct (is_variable t); [|reflexivity]. cbn [negb].
    destruct (parse_variable t); [discriminate|reflexivity].
  - destruct (imm_value t); [discriminate|reflexivity].
Qed.

Lemma rejected_operand_inside (t : Token) :
  rejected_operand t = true -> inside_line t = true.
Proof.
  intros H. destruct (rejected_operand_inv t H) as [[T|T] _];
    unfold inside_line; rewrite T; reflexivity.
Qed.

Lemma operands_before_inside (kw : Token) (before : list Token) :
  operands_before kw before = true -> inside_line kw = true.
Proof.
  unfold operands_before, inside_line.
  destruct (tok_type kw); try discriminate; reflexivity.
Qed.

Ltac some_operand :=
  match goal with
  | H : is_some (source_register ?d) = true |- _ =>
      let r := fresh "r" in let E := fresh "E" in
      destruct (source_register d) as [r|] eqn:E; [clear H|discriminate]
  | H : is_some (source_operand ?d) = true |- _ =>
      let r := fresh "s" in let E := fresh "E" in
      destruct (source_operand d) as [r|] eqn:E; [clear H|discriminate]
  | H : _ && _ = true |- _ => apply andb_true_iff in H; destruct H
  end.

(** An instruction whose operand in a register-or-immediate slot is a
    rejected identifier or number. *)
Lemma parse_cmd_bad_operand (kw : Token) (before : list Token) (bad : Token)
      (ts : list Token) (m : LabelMap) (o : list Diagnostic) :
  operands_before kw before = true -> rejected_operand bad = true ->
  parse_cmd (load (kw :: before ++ bad :: ts) false m o)
  = (None, load (bad :: ts) true m (o ++ [report bad])).
Proof.
  intros B R.
  rewrite parse_cmd_dispatch by (apply (operands_before_inside kw before B)).
  assert (E : tok_type kw <> TOK_EOF).
  { intros E. unfold operands_before in B. rewrite E in B. discriminate. }
  pose proof (load_advance kw (before ++ bad :: ts) false m o E) as A.
  unfold operands_before in B.
  destruct (tok_type kw); try discriminate;
    destruct before as [|x [|y [|z before]]]; try discriminate;
    repeat some_operand;
    unfold parse_arith, parse_mov, parse_compare, parse_print;
    rewrite A; cbn [snd app];
    repeat first
      [ erewrite parse_variable_operand_load by eassumption; cbn [negb]
      | erewrite parse_var_or_imm_load by eassumption; cbn [negb]
      | rewrite (parse_var_or_imm_rejected bad) by exact R; cbn [negb] ];
    try (rewrite load_print_error; reflexivity).
  match goal with
  | H : TokenType_eqb (tok_type x) TOK_IDENT = true |- _ =>
      apply TokenType_eqb_eq in H;
      rewrite load_current;
      match goal with S : is_base x = true |- _ => rewrite S end;
      cbn [negb];
      (rewrite load_advance by (rewrite H; discriminate)); cbn [snd];
      rewrite (parse_var_or_imm_rejected bad) by exact R; cbn [negb];
      rewrite load_print_error; reflexivity
  end.
Qed.

(** A PRINT whose next token is no base signifier. *)
Lemma parse_cmd_bad_base (kw bad : Token) (ts : list Token) (m : LabelMap)
      (o : list Diagnostic) :
  tok_type kw = TOK_PRINT -> is_base bad = false ->
  parse_cmd (load (kw :: bad :: ts) false m o)
  = (None, load (bad :: ts) true m (o ++ [report bad])).
Proof.
  intros K B.
  rewrite parse_cmd_dispatch by (unfold inside_line; rewrite K; reflexivity).
  rewrite K. unfold parse_print.
  rewrite load_advance by (rewrite K; discriminate). cbn [snd].
  rewrite load_current, B. cbn [negb].
  rewrite load_print_error. reflexivity.
Qed.

(** What a line of each kind adds to a run, whatever follows the line. *)
Lemma runs_line (l : Line) (break : Token) (rest : list Token) (m : LabelMap)
      (o : list Diagnostic) (cs : list Command) (p' : Parser) :
  line_ok l = true -> tok_type break = TOK_NL ->
  runs (load rest false m (o ++ line_reports l break)) (cs, p') ->
  runs (load (line_tokens l ++ break :: rest) false m o)
       (line_commands l ++ cs, p').
Proof.
  intros L B R.
  destruct l as [|i|bad junk|kw junk|kw before bad junk|kw bad junk
                 |i extra junk];
    cbn [line_ok line_tokens line_commands line_reports app] in *.
  - rewrite app_nil_r in R.
    apply (runs_blank_lines [break] rest m o (cs, p')); [|exact R].
    constructor; [exact B|constructor].
  - rewrite app_nil_r in R.
    destruct (built_command i) as [cmd|] eqn:E; [|discriminate].
    destruct (instruction_head i cmd E) as (kw & more & Hi & Hk).
    pose proof (parse_cmd_operands i cmd (break :: rest) m o E) as P.
    rewrite (finish_command_break break rest false m o cmd B) in P.
    rewrite Hi in *. cbn [app] in *.
    apply (runs_step _ _ p' (Some cmd) cs
             (inside_line_not_at_end kw _ false m o Hk) P).
    rewrite recover_clear by apply load_fields. exact R.
  - apply andb_true_iff in L as [Lb Lj].
    pose proof (opens_no_instruction_inside bad Lb) as Hb.
    apply (runs_failed_line _ [] break rest m (o ++ [report bad]) (cs, p'));
      [apply inside_line_not_at_end, Hb| |reflexivity|exact B|exact R].
    rewrite parse_cmd_dispatch by exact Hb.
    assert (S : skip_line (load (bad :: junk ++ break :: rest) true m
                                (o ++ [report bad]))
                = load (break :: rest) true m (o ++ [report bad])).
    { change (bad :: junk ++ break :: rest)
        with ((bad :: junk) ++ break :: rest).
      rewrite skip_line_load by (cbn [forallb]; rewrite Hb, Lj; reflexivity).
      apply skip_line_at_break, B. }
    rewrite S. unfold opens_no_instruction in Lb.
    destruct (tok_type bad); try discriminate; reflexivity.
  - apply andb_true_iff in L as [L Ld]. apply andb_true_iff in L as [Lk Lj].
    pose proof (takes_destination_inside kw Lk) as Hk.
    destruct junk as [|d junk]; cbn [hd app] in *.
    + apply (runs_failed_line _ [] break rest m (o ++ [report break]) (cs, p'));
        [apply inside_line_not_at_end, Hk| |reflexivity|exact B|exact R].
      apply parse_cmd_bad_destination;
        [exact Lk|apply source_register_break, B].
    + apply (runs_failed_line _ (d :: junk) break rest m (o ++ [report d])
                              (cs, p'));
        [apply inside_line_not_at_end, Hk| |exact Lj|exact B|exact R].
      apply parse_cmd_bad_destination; [exact Lk|].
      destruct (source_register d); [discriminate|reflexivity].
  - apply andb_true_iff in L as [L Lj]. apply andb_true_iff in L as [Lo Lr].
    rewrite <- app_assoc. cbn [app].
    apply (runs_failed_line _ (bad :: junk) break rest m (o ++ [report bad])
                            (cs, p'));
      [apply inside_line_not_at_end, (operands_before_inside kw before Lo)
      |apply parse_cmd_bad_operand; assumption| |exact B|exact R].
    cbn [forallb]. rewrite (rejected_operand_inside bad Lr), Lj. reflexivity.
  - apply andb_true_iff in L as [L Lj]. apply andb_true_iff in L as [L Lb].
    apply andb_true_iff in L as [Lk Li].
    apply TokenType_eqb_eq in Lk. apply negb_true_iff in Lb.
    apply (runs_failed_line _ (bad :: junk) break rest m (o ++ [report bad])
                            (cs, p'));
      [apply inside_line_not_at_end; unfold inside_line; rewrite Lk; reflexivity
      |apply parse_cmd_bad_base; assumption| |exact B|exact R].
    cbn [forallb]. rewrite Li, Lj. reflexivity.
  - apply andb_true_iff in L as [L Lj]. apply andb_true_iff in L as [Li Le].
    destruct (built_command i) as [cmd|] eqn:E; [|discriminate].
    destruct (instruction_head i cmd E) as (kw & more & Hi & Hk).
    pose proof (parse_cmd_operands i cmd (extra :: junk ++ break :: rest) m o E)
      as P.
    rewrite (finish_command_inside extra _ false m o cmd Le) in P.
    rewrite <- app_assoc. cbn [app].
    apply (runs_failed_line _ (extra :: junk) break rest m
                            (o ++ [report extra]) (cs, p'));
      [rewrite Hi; apply inside_line_not_at_end, Hk|exact P| |exact B|exact R].
    cbn [forallb]. rewrite Le, Lj. reflexivity.
Qed.

Lemma stream_end_at_end (ends : list Token) (e : bool) (m : LabelMap)
      (o : list Diagnostic) :
  stream_end ends = true -> is_at_end (load ends e m o) = true.
Proof.
  destruct ends as [|t ends]; [reflexivity|].
  unfold is_at_end. rewrite load_current. exact (fun H => H).
Qed.

(** The run over a program of such lines. *)
Lemma runs_program (prog : Program) (ends : list Token) (m : LabelMap)
      (o : list Diagnostic) :
  program_ok prog = true -> stream_end ends = true ->
  runs (load (program_tokens prog ++ ends) false m o)
       (program_commands prog,
        load ends false m (o ++ program_reports prog)).
Proof.
  intros P E. revert o. induction prog as [|[l b] prog IH]; intros o.
  - cbn. rewrite app_nil_r. apply runs_end, stream_end_at_end, E.
  - cbn [program_ok forallb fst snd] in P.
    apply andb_true_iff in P as [Pl P]. apply andb_true_iff in Pl as [Pl Pb].
    apply TokenType_eqb_eq in Pb.
    cbn [program_tokens program_commands program_reports flat_map fst snd].
    rewrite <- !app_assoc. cbn [app].
    apply (runs_line l b _ m o _ _ Pl Pb).
    rewrite app_assoc. apply (IH P).
Qed.

(** *** The last line, ended by the sentinel *)

Lemma recover_last (junk : list Token) (e : Token) (more : list Token)
      (m : LabelMap) (o : list Diagnostic) :
  forallb inside_line junk = true -> tok_type e = TOK_EOF ->
  recover (load (junk ++ e :: more) true m o) = load (e :: more) false m o.
Proof.
  intros J E. unfold recover.
  destruct (load_fields (junk ++ e :: more) true m o) as (-> & _).
  rewrite (skip_line_load junk (e :: more) true m o J).
  rewrite skip_line_unfold. unfold not_line_end.
  rewrite load_current, E. cbn [TokenType_eqb negb andb].
  apply load_set_flag.
Qed.

Lemma load_sentinel_at_end (e : Token) (more : list Token) (b : bool)
      (m : LabelMap) (o : list Diagnostic) :
  tok_type e = TOK_EOF -> is_at_end (load (e :: more) b m o) = true.
Proof. intros E. unfold is_at_end. rewrite load_current, E. reflexivity. Qed.

Lemma runs_failed_last (p : Parser) (junk : list Token) (e : Token)
      (more : list Token) (m : LabelMap) (o' : list Diagnostic) :
  is_at_end p = false ->
  parse_cmd p = (None, load (junk ++ e :: more) true m o') ->
  forallb inside_line junk = true -> tok_type e = TOK_EOF ->
  runs p ([], load (e :: more) false m o').
Proof.
  intros F P J E.
  apply (runs_step _ _ (load (e :: more) false m o') None [] F P).
  rewrite (recover_last junk e more m o' J E).
  apply runs_end, load_sentinel_at_end, E.
Qed.

Lemma source_register_sentinel (t : Token) :
  tok_type t = TOK_EOF -> source_register t = None.
Proof.
  intros H. unfold source_register, source_operand. rewrite H. reflexivity.
Qed.

(** What the last line adds when the sentinel, not a line break, ends
    it. *)
Lemma runs_last_line (l : Line) (e : Token) (more : list Token) (m : LabelMap)
      (o : list Diagnostic) :
  line_ok l = true -> tok_type e = TOK_EOF ->
  runs (load (line_tokens l ++ e :: more) false m o)
       (line_commands l, load (e :: more) false m (o ++ line_reports l e)).
Proof.
  intros L E.
  destruct l as [|i|bad junk|kw junk|kw before bad junk|kw bad junk
                 |i extra junk];
    cbn [line_ok line_tokens line_commands line_reports app] in *.
  - rewrite app_nil_r. apply runs_end, load_sentinel_at_end, E.
  - rewrite app_nil_r.
    destruct (built_command i) as [cmd|] eqn:X; [|discriminate].
    destruct (instruction_head i cmd X) as (kw & more' & Hi & Hk).
    pose proof (parse_cmd_operands i cmd (e :: more) m o X) as P.
    rewrite (finish_command_end _ cmd (load_sentinel_at_end e more false m o E))
      in P.
    rewrite Hi in *. cbn [app] in *.
    apply (runs_step _ _ (load (e :: more) false m o) (Some cmd) []
             (inside_line_not_at_end kw _ false m o Hk) P).
    rewrite recover_clear by apply load_fields.
    apply runs_end, load_sentinel_at_end, E.
  - apply andb_true_iff in L as [Lb Lj].
    pose proof (opens_no_instruction_inside bad Lb) as Hb.
    apply (runs_failed_last _ [] e more m (o ++ [report bad]));
      [apply inside_line_not_at_end, Hb| |reflexivity|exact E].
    rewrite parse_cmd_dispatch by exact Hb.
    assert (S : skip_line (load (bad :: junk ++ e :: more) true m
                                (o ++ [report bad]))
                = load (e :: more) true m (o ++ [report bad])).
    { change (bad :: junk ++ e :: more) with ((bad :: junk) ++ e :: more).
      rewrite skip_line_load by (cbn [forallb]; rewrite Hb, Lj; reflexivity).
      rewrite skip_line_unfold. unfold not_line_end.
      rewrite load_current, E. reflexivity. }
    rewrite S. unfold opens_no_instruction in Lb.
    destruct (tok_type bad); try discriminate; reflexivity.
  - apply andb_true_iff in L as [L Ld]. apply andb_true_iff in L as [Lk Lj].
    pose proof (takes_destination_inside kw Lk) as Hk.
    destruct junk as [|d junk]; cbn [hd app] in *.
    + apply (runs_failed_last _ [] e more m (o ++ [report e]));
        [apply inside_line_not_at_end, Hk| |reflexivity|exact E].
      apply parse_cmd_bad_destination;
        [exact Lk|apply source_register_sentinel, E].
    + apply (runs_failed_last _ (d :: junk) e more m (o ++ [report d]));
        [apply inside_line_not_at_end, Hk| |exact Lj|exact E].
      apply parse_cmd_bad_destination; [exact Lk|].
      destruct (source_register d); [discriminate|reflexivity].
  - apply andb_true_iff in L as [L Lj]. apply andb_true_iff in L as [Lo Lr].
    rewrite <- app_assoc. cbn [app].
    apply (runs_failed_last _ (bad :: junk) e more m (o ++ [report bad]));
      [apply inside_line_not_at_end, (operands_before_inside kw before Lo)
      |apply parse_cmd_bad_operand; assumption| |exact E].
    cbn [forallb]. rewrite (rejected_operand_inside bad Lr), Lj. reflexivity.
  - apply andb_true_iff in L as [L Lj]. apply andb_true_iff in L as [L Lb].
    apply andb_true_iff in L as [Lk Li].
    apply TokenType_eqb_eq in Lk. apply negb_true_iff in Lb.
    apply (runs_failed_last _ (bad :: junk) e more m (o ++ [report bad]));
      [apply inside_line_not_at_end; unfold inside_line; rewrite Lk; reflexivity
      |apply parse_cmd_bad_base; assumption| |exact E].
    cbn [forallb]. rewrite Li, Lj. reflexivity.
  - apply andb_true_iff in L as [L Lj]. apply andb_true_iff in L as [Li Le].
    destruct (built_command i) as [cmd|] eqn:X; [|discriminate].
    destruct (instruction_head i cmd X) as (kw & more' & Hi & Hk).
    pose proof (parse_cmd_operands i cmd (extra :: junk ++ e :: more) m o X)
      as P.
    rewrite (finish_command_inside extra _ false m o cmd Le) in P.
    rewrite <- app_assoc. cbn [app].
    apply (runs_failed_last _ (extra :: junk) e more m (o ++ [report extra]));
      [rewrite Hi; apply inside_line_not_at_end, Hk|exact P| |exact E].
    cbn [forallb]. rewrite Le, Lj. reflexivity.
Qed.

(** The run over a program whose last line the sentinel ends. *)
Lemma runs_program_last (prog : Program) (l : Line) (e : Token)
      (more : list Token) (m : LabelMap) (o : list Diagnostic) :
  program_ok prog = true -> line_ok l = true -> tok_type e = TOK_EOF ->
  runs (load (program_tokens prog ++ line_tokens l ++ e :: more) false m o)
       (program_commands prog ++ line_commands l,
        load (e :: more) false m
             (o ++ program_reports prog ++ line_reports l e)).
Proof.
  intros P L E. revert o. induction prog as [|[l' b] prog IH]; intros o.
  - cbn [program_tokens program_commands program_reports flat_map app].
    apply runs_last_line; assumption.
  - cbn [program_ok forallb fst snd] in P.
    apply andb_true_iff in P as [Pl P]. apply andb_true_iff in Pl as [Pl Pb].
    apply TokenType_eqb_eq in Pb.
    assert (T : program_tokens ((l', b) :: prog) ++ line_tokens l ++ e :: more
                = line_tokens l' ++
                  b :: (program_tokens prog ++ line_tokens l ++ e :: more)).
    { cbn [program_tokens flat_map fst snd]. rewrite <- !app_assoc.
      reflexivity. }
    assert (C : program_commands ((l', b) :: prog) ++ line_commands l
                = line_commands l' ++ program_commands prog ++ line_commands l).
    { cbn [program_commands flat_map fst snd]. rewrite <- app_assoc.
      reflexivity. }
    assert (R : o ++ program_reports ((l', b) :: prog) ++ line_reports l e
                = (o ++ line_reports l' b) ++
                  program_reports prog ++ line_reports l e).
    { cbn [program_reports flat_map fst snd]. rewrite <- !app_assoc.
      reflexivity. }
    rewrite T, C, R.
    apply (runs_line l' b _ m o _ _ Pl Pb). apply (IH P).
Qed.

(** Two states at which the parse of one is the parse of the other. *)
Lemma parse_commands_transfer (p q : Parser)
      (f : list Command * Parser -> list Command * Parser) :
  had_error p = false -> had_error q = false ->
  (forall r, runs q r -> runs p (f r)) ->
  parse_commands p = option_map f (parse_commands q).
Proof.
  intros Hp Hq H.
  destruct (runs_total q Hq) as (r & R & _).
  rewrite (proj2 (parse_commands_runs q r Hq) R). cbn [option_map].
  apply parse_commands_runs; [exact Hp|]. apply H, R.
Qed.

(** ** The tokens that reports show *)

Lemma c_str_firstn (s : cstring) (n : nat) :
  no_terminator (firstn n s) = true -> firstn n (c_str s) = firstn n s.
Proof.
  unfold no_terminator.
  revert n. induction s as [|c s IH]; intros n H; [reflexivity|].
  destruct n as [|n]; [reflexivity|].
  cbn [firstn forallb] in H. apply andb_true_iff in H as [Hc H].
  apply negb_true_iff in Hc. cbn [c_str]. rewrite Hc.
  cbn [firstn]. rewrite (IH n H). reflexivity.
Qed.

Lemma report_shows (t : Token) : shows t (report t).
Proof.
  unfold shows, report. cbn [diag_type diag_length diag_line diag_column diag_text].
  repeat split. intros H. unfold token_text in *.
  rewrite (c_str_firstn _ _ H). reflexivity.
Qed.

Lemma reads_parser_init (lx : Lexer) (map : LabelMap) :
  reads_from (stream_tokens lx) (parser_init lx map).
Proof.
  unfold reads_from, stream_tokens, parser_init.
  destruct lx as [|c [|n lx]];
    cbn [lexer_next_token lexer current next stdout].
  - repeat split; auto using incl_nil_l, in_eq.
  - repeat split; auto using incl_nil_l, in_eq, in_cons.
  - repeat split; auto using in_eq, in_cons.
    intros x Hx. auto using in_cons.
Qed.

Lemma reads_advance (S : list Token) (p : Parser) :
  reads_from S p -> reads_from S (snd (advance p)).
Proof.
  intros (He & Hc & Hn & Hl & Ho). unfold advance.
  destruct (negb (is_at_end p)); [|repeat split; assumption].
  destruct (lexer p) as [|t lx] eqn:E;
    cbn [lexer_next_token snd set_tokens lexer current next stdout].
  - repeat split; auto using incl_nil_l.
  - repeat split; auto.
    + apply Hl, in_eq.
    + intros x Hx. apply Hl, in_cons, Hx.
Qed.

Lemma reads_print_error (S : list Token) (p : Parser) (msg : string)
      (c : option Command) :
  reads_from S p -> reads_from S (print_error p msg c).
Proof.
  intros (He & Hc & Hn & Hl & Ho). unfold print_error. cbn.
  repeat split; auto.
  apply Forall_app. split; [exact Ho|].
  constructor; [|constructor]. exists (current p). auto.
Qed.

Lemma reads_set_had_error (S : list Token) (p : Parser) (b : bool) :
  reads_from S p -> reads_from S (set_had_error p b).
Proof. intros H. exact H. Qed.

Lemma reads_skip_nls (S : list Token) (p : Parser) :
  reads_from S p -> reads_from S (skip_nls p).
Proof.
  unfold skip_nls. generalize (tokens_left p) as fuel. intros fuel. revert p.
  induction fuel as [|fuel IH]; intros p H; [exact H|].
  cbn [skip_nls_loop]. unfold consume.
  destruct (TokenType_eqb (tok_type (current p)) TOK_NL); [|exact H].
  apply IH, reads_advance, H.
Qed.

Lemma reads_skip_line (S : list Token) (p : Parser) :
  reads_from S p -> reads_from S (skip_line p).
Proof.
  unfold skip_line. generalize (tokens_left p) as fuel. intros fuel. revert p.
  induction fuel as [|fuel IH]; intros p H; [exact H|].
  cbn [skip_line_loop].
  destruct (not_line_end p); [|exact H].
  apply IH, reads_advance, H.
Qed.

Lemma reads_parse_variable_operand (S : list Token) (p : Parser) (op : Operand) :
  reads_from S p -> reads_from S (snd (parse_variable_operand p op)).
Proof.
  intros H.
  destruct (parse_variable_operand_cases p op) as [(r & _ & _ & _ & ->)| ->];
    cbn [snd]; auto using reads_advance.
Qed.

Lemma reads_parse_var_or_imm (S : list Token) (p : Parser) (op : Operand)
      (i : bool) :
  reads_from S p -> reads_from S (snd (parse_var_or_imm p op i)).
Proof.
  intros H.
  destruct (parse_var_or_imm_cases p op i)
    as [(r & _ & _ & _ & ->)|[(v & _ & _ & ->)|[(_ & ->)|(_ & _ & ->)]]];
    cbn [snd]; auto using reads_advance.
Qed.

Lemma reads_finish_command (S : list Token) (p : Parser) (c : Command) :
  reads_from S p -> reads_from S (snd (finish_command p c)).
Proof.
  intros H. unfold finish_command. destruct (not_line_end p); cbn [snd].
  - apply reads_print_error, H.
  - apply reads_advance, H.
Qed.

Ltac reads_call S :=
  match goal with
  | |- context [parse_variable_operand ?p ?o] =>
      let H := fresh "R" in
      assert (H : reads_from S (snd (parse_variable_operand p o)))
        by (apply reads_parse_variable_operand; auto using reads_advance);
      destruct (parse_variable_operand p o) as [[[|] ?] ?];
      cbn [snd fst negb] in *
  | |- context [parse_var_or_imm ?p ?o ?i] =>
      let H := fresh "R" in
      assert (H : reads_from S (snd (parse_var_or_imm p o i)))
        by (apply reads_parse_var_or_imm; auto using reads_advance);
      destruct (parse_var_or_imm p o i) as [[[[|] ?] ?] ?];
      cbn [snd fst negb] in *
  end.

Ltac reads_tac S :=
  repeat reads_call S;
  first [ apply reads_finish_command | apply reads_print_error ];
  auto using reads_advance.

Lemma reads_parse_arith (S : list Token) (type : CommandType) (p : Parser) :
  reads_from S p -> reads_from S (snd (parse_arith type p)).
Proof. intros H. unfold parse_arith. reads_tac S. Qed.

Lemma reads_parse_mov (S : list Token) (p : Parser) :
  reads_from S p -> reads_from S (snd (parse_mov p)).
Proof. intros H. unfold parse_mov. reads_tac S. Qed.

Lemma reads_parse_compare (S : list Token) (type : CommandType) (p : Parser) :
  reads_from S p -> reads_from S (snd (parse_compare type p)).
Proof. intros H. unfold parse_compare. reads_tac S. Qed.

Lemma reads_parse_print (S : list Token) (p : Parser) :
  reads_from S p -> reads_from S (snd (parse_print p)).
Proof.
  intros H. unfold parse_print.
  destruct (negb (is_base (current (snd (advance p))))).
  - cbn [snd]. apply reads_print_error, reads_advance, H.
  - pose proof (reads_advance S _ (reads_advance S p H)). reads_tac S.
Qed.

Lemma reads_parse_cmd (S : list Token) (p : Parser) :
  reads_from S p -> reads_from S (snd (parse_cmd p)).
Proof.
  intros H. unfold parse_cmd.
  pose proof (reads_skip_nls S p H) as Q.
  destruct (had_error (skip_nls p)); [exact Q|].
  destruct (TokenType_eqb (tok_type (current (skip_nls p))) TOK_EOF);
    [exact Q|].
  destruct (tok_type (current (skip_nls p)));
    first [ apply reads_parse_arith, Q | apply reads_parse_mov, Q
          | apply reads_parse_compare, Q | apply reads_parse_print, Q
          | cbn [snd]; apply reads_skip_line, reads_print_error, Q ].
Qed.

Lemma reads_recover (S : list Token) (p : Parser) :
  reads_from S p -> reads_from S (recover p).
Proof.
  intros H. unfold recover. destruct (had_error p); [|exact H].
  apply reads_set_had_error, reads_skip_line, H.
Qed.

Lemma reads_parse_commands_loop (S : list Token) (fuel : nat) (p p' : Parser)
      (acc cs : list Command) :
  reads_from S p -> parse_commands_loop fuel p acc = Some (cs, p') ->
  reads_from S p'.
Proof.
  revert p acc. induction fuel as [|fuel IH]; intros p acc H R; [discriminate|].
  rewrite parse_commands_loop_unfold in R.
  destruct (negb (is_at_end p)).
  - apply (IH _ _ (reads_recover S _ (reads_parse_cmd S p H)) R).
  - injection R as _ <-. exact H.
Qed.

(** * Further theorems *)

(** ** The token buffer *)

Lemma advance_n_load (ts rest : list Token) (e : bool) (m : LabelMap)
      (o : list Diagnostic) :
  forallb (fun t => negb (TokenType_eqb (tok_type t) TOK_EOF)) ts = true ->
  advance_n (List.length ts) (load (ts ++ rest) e m o) = (ts, load rest e m o).
Proof.
  induction ts as [|t ts IH]; intros H; [reflexivity|].
  cbn [forallb] in H. apply andb_true_iff in H as [Ht H].
  apply negb_true_iff, TokenType_eqb_neq in Ht.
  cbn [List.length app advance_n].
  rewrite (load_advance t (ts ++ rest) e m o Ht), (IH H). reflexivity.
Qed.

Lemma advance_n_at_end (n : nat) (p : Parser) :
  is_at_end p = true -> advance_n n p = (repeat (current p) n, p).
Proof.
  intros H. induction n as [|n IH]; [reflexivity|].
  cbn [advance_n repeat]. rewrite (advance_at_end p H), IH. reflexivity.
Qed.

(** X1: the parser built by [parser_init] hands out the tokens of the
    lexer one by one and in order: after as many calls of [advance] as
    there are tokens in front of the sentinel, those tokens have been
    returned and the state is the one [parser_init] builds over the rest
    of the stream; once the stream is at its end, every further call
    returns the sentinel and changes nothing. *)
Theorem parser_reads_tokens_in_order (ts rest : list Token) (map : LabelMap) :
  forallb (fun t => negb (TokenType_eqb (tok_type t) TOK_EOF)) ts = true ->
  advance_n (List.length ts) (parser_init (ts ++ rest) map)
  = (ts, parser_init rest map) /\
  (stream_end rest = true ->
   forall n, advance_n n (parser_init rest map)
             = (repeat (current (parser_init rest map)) n,
                parser_init rest map)).
Proof.
  intros H. rewrite !parser_init_load. split.
  - apply advance_n_load, H.
  - intros E n. apply advance_n_at_end, stream_end_at_end, E.
Qed.

Lemma parser_reads_tokens_in_order_witness :
  advance_n 3 (parser_init (instruction_tokens mov_x3_x1 ++ [nl_token]) 0)
  = (instruction_tokens mov_x3_x1, parser_init [nl_token] 0) /\
  (stream_end [nl_token] = true ->
   forall n, advance_n n (parser_init [nl_token] 0)
             = (repeat (current (parser_init [nl_token] 0)) n,
                parser_init [nl_token] 0)).
Proof.
  apply (parser_reads_tokens_in_order (instruction_tokens mov_x3_x1)
                                      [nl_token] 0).
  reflexivity.
Defined.

(** X2: [skip_nls] consumes the line breaks in front of the stream and
    nothing else: over line breaks followed by a stream that does not
    begin with one, it leaves the state that [parser_init] builds over
    that stream. *)
Theorem skip_nls_reaches_first_token (nls ts : list Token) (map : LabelMap) :
  forallb (fun t => TokenType_eqb (tok_type t) TOK_NL) nls = true ->
  match ts with
  | t :: _ => negb (TokenType_eqb (tok_type t) TOK_NL)
  | [] => true
  end = true ->
  skip_nls (parser_init (nls ++ ts) map) = parser_init ts map.
Proof.
  intros Hn Ht. rewrite !parser_init_load.
  rewrite skip_nls_load.
  - apply skip_nls_here. destruct ts as [|t ts].
    + discriminate.
    + rewrite load_current. apply TokenType_eqb_neq, negb_true_iff, Ht.
  - apply Forall_forall. intros t Hin.
    apply TokenType_eqb_eq. exact (proj1 (forallb_forall _ _) Hn t Hin).
Qed.

Lemma skip_nls_reaches_first_token_witness :
  skip_nls (parser_init ([nl_token; nl_token] ++ instruction_tokens mov_x3_x1) 0)
  = parser_init (instruction_tokens mov_x3_x1) 0.
Proof.
  apply (skip_nls_reaches_first_token [nl_token; nl_token]
                                      (instruction_tokens mov_x3_x1) 0);
    reflexivity.
Defined.

(** X3: [consume_newline] succeeds exactly at a line break or at the
    sentinel, consuming the line break and leaving the sentinel in place,
    and it changes nothing when it fails; the test that ends every
    production of [parse_cmd] is this function. *)
Theorem consume_newline_is_line_end_test (p : Parser) (c : Command) :
  consume_newline p
  = (negb (not_line_end p), if not_line_end p then p else snd (advance p)) /\
  (is_at_end p = true -> consume_newline p = (true, p)) /\
  finish_command p c
  = (if fst (consume_newline p) then (Some c, snd (consume_newline p))
     else (None, print_error p "Unexpected token after command." (Some c))).
Proof.
  assert (A : consume_newline p
              = (negb (not_line_end p),
                 if not_line_end p then p else snd (advance p))).
  { unfold consume_newline, consume, not_line_end.
    destruct (TokenType_eqb (tok_type (current p)) TOK_NL) eqn:N;
      [reflexivity|].
    destruct (TokenType_eqb (tok_type (current p)) TOK_EOF); reflexivity. }
  split; [exact A|]. split.
  - intros E. rewrite A, (at_end_line_end p E), (advance_at_end p E).
    reflexivity.
  - rewrite A. unfold finish_command.
    destruct (not_line_end p); reflexivity.
Qed.

(** ** One call of [parse_cmd] *)

(** X4: a call of [parse_cmd] with the error flag raised returns nothing
    and only skips line breaks.  With the flag clear it ends in one of
    three ways: it returns a command, prints nothing and leaves the flag
    clear; or it returns nothing at the end of the input, having printed
    nothing; or it returns nothing, prints exactly one report and raises
    the flag. *)
Theorem parse_cmd_outcomes (p : Parser) :
  if had_error p then parse_cmd p = (None, skip_nls p)
  else Outcome p (parse_cmd p).
Proof.
  destruct (had_error p) eqn:H.
  - apply parse_cmd_halted, H.
  - apply parse_cmd_outcome, H.
Qed.

(** ** The output of [parse_commands] *)

(** X5: [parse_commands] returns with the error flag clear, however many
    instructions failed, and the commands it returns and the reports it
    prints are together no more than the tokens of the input. *)
Theorem parse_commands_output_bound (lx : Lexer) (map : LabelMap)
        (cmds : list Command) (p' : Parser) :
  parse_commands (parser_init lx map) = Some (cmds, p') ->
  had_error p' = false /\
  List.length cmds + List.length (stdout p') <= List.length lx.
Proof.
  intros H. unfold parse_commands in H.
  destruct (parse_commands_loop_output _ _ _ _ _
              (proj1 (load_fields lx false map [])) H)
    as (Hf & ds & Hs & Hb).
  split; [exact Hf|].
  rewrite (proj1 (proj2 (load_fields lx false map []))) in Hs.
  rewrite Hs. pose proof (tokens_left_init lx map) as T.
  rewrite parser_init_load in T. cbn [app List.length] in *. lia.
Qed.

Lemma parse_commands_output_bound_witness :
  had_error (snd bogus_run) = false /\
  List.length (fst bogus_run) + List.length (stdout (snd bogus_run))
  <= List.length (tokenize source_bogus).
Proof.
  apply (parse_commands_output_bound (tokenize source_bogus) 0
                                     (fst bogus_run) (snd bogus_run)).
  vm_compute. reflexivity.
Defined.

(** X6: every command that [parse_commands] returns fills the slots of
    its kind and no other: ADD, SUB and MOV hold a register as
    destination, the other kinds leave the destination as created; a
    register-or-immediate slot holds a register with its flag clear or a
    number with its flag set; MOV leaves operand B and its flag as
    created; PRINT holds in operand A a string that begins with one of
    [d], [x], [s], [b], with the flag of A clear. *)
Theorem returned_commands_have_their_shape (p p' : Parser)
        (cmds : list Command) :
  parse_commands p = Some (cmds, p') ->
  Forall (fun c => command_shape c = true) cmds.
Proof.
  intros H. unfold parse_commands in H.
  eapply (parse_commands_loop_Forall (fun c => command_shape c = true));
    [|constructor|exact H].
  intros q c q' E. exact (proj1 (parse_cmd_shape q q' c E)).
Qed.

Lemma returned_commands_have_their_shape_witness :
  Forall (fun c => command_shape c = true) (fst bogus_run).
Proof.
  apply (returned_commands_have_their_shape
           (parser_init (tokenize source_bogus) 0) (snd bogus_run)
           (fst bogus_run)).
  vm_compute. reflexivity.
Defined.

(** X7: an immediate that [parse_imm] stores is a 64-bit value, whatever
    the token and however long its digits, and so is every number held by
    a command that [parse_commands] returns. *)
Theorem immediates_are_64_bit :
  (forall (p q : Parser) (op op' : Operand),
      parse_imm p op = (true, op', q) ->
      exists v, op' = num_val v /\ (0 <= v < 2 ^ 64)%Z) /\
  (forall (p p' : Parser) (cmds : list Command),
      parse_commands p = Some (cmds, p') -> Forall operands_are_words cmds).
Proof.
  split.
  - intros p q op op' H.
    destruct (parse_imm_cases p op) as [(v & _ & B & E)|E]; rewrite E in H;
      [|discriminate].
    injection H as <- _. exists v. split; [reflexivity|].
    exact (imm_value_bound _ _ B).
  - intros p p' cmds H. unfold parse_commands in H.
    eapply (parse_commands_loop_Forall operands_are_words);
      [|constructor|exact H].
    intros q c q' E. exact (proj2 (parse_cmd_shape q q' c E)).
Qed.

Lemma immediates_are_64_bit_witness :
  exists v, num_val 0 = num_val v /\ (0 <= v < 2 ^ 64)%Z.
Proof.
  apply (proj1 immediates_are_64_bit
               (at_token (word TOK_NUM "18446744073709551616"))
               (snd (advance (at_token (word TOK_NUM "18446744073709551616"))))
               (num_val 7) (num_val 0)).
  vm_compute. reflexivity.
Defined.

(** ** Lines and programs *)

(** X8: error containment, line by line.  A blank line, a well-formed
    instruction, a line that begins with a token that opens no
    instruction, an ADD, SUB or MOV without a register as first operand,
    an instruction with a rejected identifier or number in a
    register-or-immediate slot, a PRINT without a base signifier, and a
    well-formed instruction followed by further tokens: in front of any
    stream at all, such a line adds its own command (if it has one) and
    its own report (if it has one, naming the offending token) to what
    the parse of the rest of the stream yields, and changes nothing
    else. *)
Theorem line_is_contained (l : Line) (break : Token) (rest : list Token)
        (map : LabelMap) :
  line_ok l = true -> tok_type break = TOK_NL ->
  parse_commands (parser_init (line_tokens l ++ break :: rest) map)
  = option_map
      (fun r => (line_commands l ++ fst r,
                 with_reports (line_reports l break) (snd r)))
      (parse_commands (parser_init rest map)).
Proof.
  intros L B. rewrite !parser_init_load.
  apply parse_commands_transfer; try apply load_fields.
  intros [cs p'] R. cbn [fst snd].
  apply (runs_line l break rest map [] cs _ L B).
  cbn [app].
  pose proof (runs_reports (line_reports l break) _ _ _ R) as R'.
  rewrite with_reports_load, app_nil_r in R'. exact R'.
Qed.

Lemma line_is_contained_witness :
  parse_commands
    (parser_init
       (line_tokens (Unknown (word TOK_IDENT "bogus") [])
        ++ nl_token :: instruction_tokens mov_x3_x1) 0)
  = option_map
      (fun r =>
         (line_commands (Unknown (word TOK_IDENT "bogus") []) ++ fst r,
          with_reports
            (line_reports (Unknown (word TOK_IDENT "bogus") []) nl_token)
            (snd r)))
      (parse_commands (parser_init (instruction_tokens mov_x3_x1) 0)).
Proof.
  apply (line_is_contained (Unknown (word TOK_IDENT "bogus") []) nl_token
                           (instruction_tokens mov_x3_x1) 0);
    reflexivity.
Defined.

(** X9: a program made of such lines, each ended by a line break, with
    nothing or the sentinel behind the last: [parse_commands] returns the
    commands of the well-formed lines in the order of the lines, prints
    the reports of the faulty lines in the order of the lines, and stops
    at the end of the input with the error flag clear. *)
Theorem program_is_parsed_line_by_line (prog : Program) (ends : list Token)
        (map : LabelMap) :
  program_ok prog = true -> stream_end ends = true ->
  exists p',
    parse_commands (parser_init (program_tokens prog ++ ends) map)
    = Some (program_commands prog, p') /\
    stdout p' = program_reports prog /\
    is_at_end p' = true /\ had_error p' = false.
Proof.
  intros P E. rewrite parser_init_load.
  exists (load ends false map ([] ++ program_reports prog)).
  split; [|split; [|split]].
  - apply parse_commands_runs; [apply load_fields|].
    apply runs_program; assumption.
  - apply load_fields.
  - apply stream_end_at_end, E.
  - apply load_fields.
Qed.

Lemma program_is_parsed_line_by_line_witness :
  exists p',
    parse_commands (parser_init (program_tokens sample_program ++ []) 0)
    = Some (program_commands sample_program, p') /\
    stdout p' = program_reports sample_program /\
    is_at_end p' = true /\ had_error p' = false.
Proof.
  apply (program_is_parsed_line_by_line sample_program [] 0); reflexivity.
Defined.

(** X10: the last line of a program need not end with a line break.  When
    the sentinel follows its tokens directly, a line of any of the kinds
    above still adds its command or its report, the report of an ADD, SUB
    or MOV that stands alone naming the sentinel; the parser then rests
    at the sentinel with the error flag clear, and the tokens behind the
    sentinel are not read. *)
Theorem last_line_needs_no_line_break (prog : Program) (l : Line) (e : Token)
        (more : list Token) (map : LabelMap) :
  program_ok prog = true -> line_ok l = true -> tok_type e = TOK_EOF ->
  exists p',
    parse_commands
      (parser_init (program_tokens prog ++ line_tokens l ++ e :: more) map)
    = Some (program_commands prog ++ line_commands l, p') /\
    stdout p' = program_reports prog ++ line_reports l e /\
    current p' = e /\ had_error p' = false.
Proof.
  intros P L E. rewrite parser_init_load.
  exists (load (e :: more) false map
               ([] ++ program_reports prog ++ line_reports l e)).
  split; [|split; [|split]].
  - apply parse_commands_runs; [apply load_fields|].
    apply runs_program_last; assumption.
  - apply load_fields.
  - apply load_current.
  - apply load_fields.
Qed.

Lemma last_line_needs_no_line_break_witness :
  exists p',
    parse_commands
      (parser_init (program_tokens sample_program
                    ++ line_tokens (Good add_x1_x2_3) ++ eof_token :: []) 0)
    = Some (program_commands sample_program
            ++ line_commands (Good add_x1_x2_3), p') /\
    stdout p' = program_reports sample_program
                ++ line_reports (Good add_x1_x2_3) eof_token /\
    current p' = eof_token /\ had_error p' = false.
Proof.
  apply (last_line_needs_no_line_break sample_program (Good add_x1_x2_3)
                                       eof_token [] 0); reflexivity.
Defined.

(** ** Reports *)

(** X11: [print_error] prints exactly one report, behind those printed
    before, and the report shows the current token: its kind, length,
    line and column, and its text as it stands in the source ([EOF] for
    the sentinel); it raises the error flag and leaves the token buffer
    as it is.  Over a whole run of [parse_commands] every report printed
    therefore shows a token of the lexer's stream (or the sentinel the
    lexer yields at its end): no report is made up. *)
Theorem print_error_reports_current_token :
  (forall (p : Parser) (msg : string) (c : option Command),
      exists d,
        stdout (print_error p msg c) = stdout p ++ [d] /\
        shows (current p) d /\
        had_error (print_error p msg c) = true /\
        current (print_error p msg c) = current p /\
        next (print_error p msg c) = next p /\
        lexer (print_error p msg c) = lexer p) /\
  (forall (lx : Lexer) (map : LabelMap) (cmds : list Command) (p' : Parser),
      parse_commands (parser_init lx map) = Some (cmds, p') ->
      Forall (fun d => exists t, In t (stream_tokens lx) /\ shows t d)
             (stdout p')).
Proof.
  split.
  - intros p msg c. exists (report (current p)).
    repeat split; try reflexivity; try apply report_shows.
  - intros lx map cmds p' H. unfold parse_commands in H.
    pose proof (reads_parse_commands_loop (stream_tokens lx) _ _ _ _ _
                  (reads_parser_init lx map) H) as (_ & _ & _ & _ & R).
    eapply Forall_impl; [|exact R].
    intros d (t & Ht & ->). exists t. split; [exact Ht|apply report_shows].
Qed.

Lemma print_error_reports_current_token_witness :
  Forall (fun d => exists t, In t (stream_tokens (tokenize source_bogus))
                             /\ shows t d)
         (stdout (snd bogus_run)).
Proof.
  apply (proj2 print_error_reports_current_token (tokenize source_bogus) 0
               (fst bogus_run) (snd bogus_run)).
  vm_compute. reflexivity.
Defined.
